(** * Story generator script (Python/test.py): extraction, truncation,
      API wrappers, the relational store and the main flow.

    Python [str] values are modelled as lists of characters ([list ascii]);
    the regular expressions of [extract_image_instructions] only
    distinguish the period, the comma, the space and the letters of their
    fixed words, so any other character behaves like an ordinary letter.
    Python [int] values are [Z]. *)

From Stdlib Require Import Ascii String List ZArith Lia Bool Arith.
From Stdlib Require Import DecimalString.
Import ListNotations.

Local Open Scope char_scope.
Local Open Scope list_scope.

(** ** Python strings *)

Module PyStr.

Definition pystr := list ascii.

(** A literal of the source, written as a Rocq string. *)
Definition str (s : string) : pystr := list_ascii_of_string s.

(** [sep.join(parts)] *)
Fixpoint join (sep : pystr) (parts : list pystr) : pystr :=
  match parts with
  | [] => []
  | [x] => x
  | x :: rest => x ++ sep ++ join sep rest
  end.

(** Truth value of a [str]: the empty string is falsy. *)
Definition truthy (s : pystr) : bool :=
  match s with [] => false | _ :: _ => true end.

(** [filter(None, parts)] on a list of strings. *)
Definition filter_None (parts : list pystr) : list pystr :=
  filter truthy parts.

(** [s[:n]] for an arbitrary integer [n]: a negative [n] counts from the
    end of [s], and the stop index is clipped to [0]. *)
Definition slice_to (s : pystr) (n : Z) : pystr :=
  if (0 <=? n)%Z then firstn (Z.to_nat n) s
  else firstn (Z.to_nat (Z.of_nat (length s) + n)) s.

(** Split at the last occurrence of [sep], when there is one. *)
Fixpoint rsplit_last (sep : ascii) (s : pystr) : option (pystr * pystr) :=
  match s with
  | [] => None
  | c :: s' =>
      match rsplit_last sep s' with
      | Some (h, t) => Some (c :: h, t)
      | None => if Ascii.eqb c sep then Some ([], s') else None
      end
  end.

(** [s.rsplit(sep, 1)] for a one-character separator. *)
Definition rsplit1 (sep : ascii) (s : pystr) : list pystr :=
  match rsplit_last sep s with
  | Some (h, t) => [h; t]
  | None => [s]
  end.

(** [w] occurs in [s] as a contiguous substring. *)
Definition substring_of (w s : pystr) : Prop :=
  exists pre post, s = pre ++ w ++ post.

(** [p] is a prefix of [s]. *)
Definition prefix_of (p s : pystr) : Prop :=
  exists rest, s = p ++ rest.

End PyStr.
Import PyStr.

(** ** The fragment of Python's [re] used by the script

    Each of the three patterns is an alternation of branches; a branch is
    a sequence of fixed words and greedy runs [[^...]+].  Python's matcher
    backtracks: at one start position the branches are tried in order,
    and a greedy run first takes all it can and then gives characters
    back one at a time until the rest of the branch matches. *)

Module Re.

Inductive item : Type :=
| Lit (word : pystr)
| NotInPlus (excluded : list ascii).

Definition branch := list item.
Definition pattern := list branch.

Fixpoint starts_with (word s : pystr) : bool :=
  match word, s with
  | [], _ => true
  | _ :: _, [] => false
  | a :: word', c :: s' => Ascii.eqb a c && starts_with word' s'
  end.

Definition excludes (excluded : list ascii) (c : ascii) : bool :=
  negb (existsb (Ascii.eqb c) excluded).

(** Length of the longest run of admissible characters at the head of [s]. *)
Fixpoint span (excluded : list ascii) (s : pystr) : nat :=
  match s with
  | [] => 0
  | c :: s' => if excludes excluded c then S (span excluded s') else 0
  end.

(** Greedy choice with backtracking: try [n], then [n - 1], ..., down to
    [1] characters for the run, [k] being the match of what follows. *)
Fixpoint backtrack (k : nat -> option nat) (n : nat) : option nat :=
  match n with
  | 0 => None
  | S n' =>
      match k n with
      | Some r => Some (n + r)
      | None => backtrack k n'
      end
  end.

(** Match one branch at the head of [s]; the result is the length of
    the match. *)
Fixpoint match_branch (b : branch) (s : pystr) : option nat :=
  match b with
  | [] => Some 0
  | Lit word :: rest =>
      if starts_with word s then
        match match_branch rest (skipn (length word) s) with
        | Some r => Some (length word + r)
        | None => None
        end
      else None
  | NotInPlus excluded :: rest =>
      backtrack (fun n => match_branch rest (skipn n s)) (span excluded s)
  end.

(** Match the alternation at the head of [s]: first branch that succeeds. *)
Fixpoint match_here (p : pattern) (s : pystr) : option nat :=
  match p with
  | [] => None
  | b :: p' =>
      match match_branch b s with
      | Some n => Some n
      | None => match_here p' s
      end
  end.

(** [re.search]: the leftmost start position with a match, as
    (offset, length). *)
Fixpoint search_pos (p : pattern) (s : pystr) : option (nat * nat) :=
  match match_here p s with
  | Some n => Some (0, n)
  | None =>
      match s with
      | [] => None
      | _ :: s' =>
          match search_pos p s' with
          | Some (i, n) => Some (S i, n)
          | None => None
          end
      end
  end.

(** [re.search(p, s)] with [.group()] applied to a match. *)
Definition search (p : pattern) (s : pystr) : option pystr :=
  match search_pos p s with
  | Some (i, n) => Some (firstn n (skipn i s))
  | None => None
  end.

(** [re.findall] for a pattern that is one capturing group: the matches
    found scanning left to right, each search resuming where the previous
    match ended.  [skip] counts the characters of the previous match that
    are still to be passed over. *)
Fixpoint findall_from (p : pattern) (s : pystr) (skip : nat) : list pystr :=
  match skip with
  | S k =>
      match s with
      | [] => []
      | _ :: s' => findall_from p s' k
      end
  | 0 =>
      match match_here p s with
      | Some n =>
          firstn n s ::
          match s with
          | [] => []
          | _ :: s' => findall_from p s' (pred n)
          end
      | None =>
          match s with
          | [] => []
          | _ :: s' => findall_from p s' 0
          end
      end
  end.

Definition findall (p : pattern) (s : pystr) : list pystr :=
  findall_from p s 0.

(** *** The language of a pattern, independently of the matcher *)

Fixpoint in_branch (b : branch) (w : pystr) : Prop :=
  match b with
  | [] => w = []
  | Lit word :: rest => exists w', w = word ++ w' /\ in_branch rest w'
  | NotInPlus excluded :: rest =>
      exists u w',
        w = u ++ w' /\ u <> [] /\
        Forall (fun c => excludes excluded c = true) u /\
        in_branch rest w'
  end.

Definition in_pattern (p : pattern) (w : pystr) : Prop :=
  Exists (fun b => in_branch b w) p.

(** Some substring of [s] that starts at offset [i] is in the language. *)
Definition matches_at (p : pattern) (s : pystr) (i : nat) : Prop :=
  i <= length s /\ exists w t, skipn i s = w ++ t /\ in_pattern p w.

End Re.
Import Re.

(** ** The instruction extractor *)

Definition not_dot_comma : item := NotInPlus ["."; ","].

(** [r"(in a [^\.,]+|on a [^\.,]+|at the [^\.,]+)"] *)
Definition setting_pattern : pattern :=
  [ [Lit (str "in a "); not_dot_comma];
    [Lit (str "on a "); not_dot_comma];
    [Lit (str "at the "); not_dot_comma] ].

(** [r"(a [^\.,]+ man|a [^\.,]+ woman|a [^\.,]+ person|a [^\.,]+ creature)"] *)
Definition characters_pattern : pattern :=
  [ [Lit (str "a "); not_dot_comma; Lit (str " man")];
    [Lit (str "a "); not_dot_comma; Lit (str " woman")];
    [Lit (str "a "); not_dot_comma; Lit (str " person")];
    [Lit (str "a "); not_dot_comma; Lit (str " creature")] ].

(** [r"(holding a [^\.,]+|standing [^\.,]+|sitting [^\.,]+|lying [^\.,]+)"] *)
Definition action_pattern : pattern :=
  [ [Lit (str "holding a "); not_dot_comma];
    [Lit (str "standing "); not_dot_comma];
    [Lit (str "sitting "); not_dot_comma];
    [Lit (str "lying "); not_dot_comma] ].

(** Python values that reach the script's functions as text. *)
Inductive pyval : Type :=
| PyNone
| PyStr (s : pystr).

Inductive exc_class : Type :=
| TypeError | KeyError | IndexError | OSError | JSONDecodeError
| EOFError | OperationalError | HTTPError | APIError.

(** An exception instance: its class and the text [str(e)] gives. *)
Record exn : Type := mk_exn { exn_class : exc_class; exn_text : pystr }.

Inductive result (A : Type) : Type :=
| Ok (a : A)
| Raise (e : exn).
Arguments Ok {A} a.
Arguments Raise {A} e.

(** [seq[0]] *)
Definition first_item {A} (seq : list A) : result A :=
  match seq with
  | x :: _ => Ok x
  | [] => Raise (mk_exn IndexError (str "list index out of range"))
  end.

(** [s[:n].rsplit(' ', 1)[0]], the cut used twice in the script. *)
Definition cut_at_word (s : pystr) (n : Z) : result pystr :=
  first_item (rsplit1 " " (slice_to s n)).

(** [setting.group() if setting else ""] *)
Definition group_or_empty (m : option pystr) : pystr :=
  match m with Some g => g | None => [] end.

(** Lines 72-80: the joined instruction, before any truncation. *)
Definition instruction (text : pystr) : pystr :=
  let setting := search setting_pattern text in
  let characters := findall characters_pattern text in
  let action := search action_pattern text in
  let instruction_parts :=
    [ group_or_empty setting;
      join (str ", ") characters;
      group_or_empty action ] in
  join (str ", ") (filter_None instruction_parts).

(** [re.search] and [re.findall] raise [TypeError] on a subject that is
    not a string. *)
Definition expected_string : exn :=
  mk_exn TypeError (str "expected string or bytes-like object, got 'NoneType'").

Definition extract_image_instructions (text : pyval) (max_length : Z)
  : result pystr :=
  match text with
  | PyNone => Raise expected_string
  | PyStr t =>
      let instruction := instruction t in
      if (Z.of_nat (length instruction) >? max_length)%Z
      then cut_at_word instruction max_length
      else Ok instruction
  end.

(** ** Effects: console, the two endpoints, HTTP, files and the store *)

(** Truth value of a Python value: [None] and [""] are falsy. *)
Definition py_truthy (v : pyval) : bool :=
  match v with
  | PyNone => false
  | PyStr s => truthy s
  end.

(** What an f-string renders for [{v}]. *)
Definition format (v : pyval) : pystr :=
  match v with
  | PyNone => str "None"
  | PyStr s => s
  end.

Module Sqlite.

(** A row of a table: its rowid and the value of each column. *)
Record row : Type := mk_row { row_id : Z; row_cells : list (string * pyval) }.

Record table : Type := mk_table { columns : list string; rows : list row }.

(** The content of the database file, as far as the script goes: the
    table [stories], when it exists. *)
Definition database := option table.

(** The statements the script issues. *)
Inductive statement : Type :=
| CreateTableIfNotExists (cols : list string)
| InsertInto (cols : list string) (params : list pyval).

(** A connection as [sqlite3.connect(db_path)] gives it at line 146, in
    the module's default transaction control: an INSERT opens a
    transaction and reaches the file at the next commit. *)
Record connection : Type := mk_connection {
  committed : database;        (* what the file holds *)
  working : database;          (* what this connection sees *)
  in_transaction : bool;       (* an INSERT awaits its commit *)
  lastrowid : option Z;
  executed : list statement;   (* statements run on the cursor, oldest first *)
  closed : bool
}.

Fixpoint lookup {V : Type} (k : string) (d : list (string * V)) : option V :=
  match d with
  | [] => None
  | (k', v) :: d' => if String.eqb k k' then Some v else lookup k d'
  end.

(** [INTEGER PRIMARY KEY]: a new row gets the largest rowid in use plus
    one, and [1] in an empty table (rowids stay below [2^63 - 1] here). *)
Definition next_id (rs : list row) : Z :=
  match rs with
  | [] => 1
  | r :: rs' => fold_left Z.max (map row_id rs') (row_id r) + 1
  end.

(** The cells of the new row: the parameter bound to each named column,
    [NULL] for the columns that are not named. *)
Definition bind_cells (schema cols : list string) (params : list pyval)
  : list (string * pyval) :=
  map (fun c =>
         match lookup c (combine cols params) with
         | Some v => (c, v)
         | None => (c, PyNone)
         end) schema.

Definition no_such_table : exn := mk_exn OperationalError (str "no such table: stories").
Definition no_such_column : exn := mk_exn OperationalError (str "table stories has no such column").
Definition bad_bindings : exn := mk_exn OperationalError (str "Incorrect number of bindings supplied").

(** Effect of one statement on the working copy: the new content and
    the rowid it assigned, or the error it raises. *)
Definition run (st : statement) (db : database) : result (database * option Z) :=
  match st with
  | CreateTableIfNotExists cols =>
      match db with
      | Some t => Ok (Some t, None)
      | None => Ok (Some (mk_table cols []), None)
      end
  | InsertInto cols params =>
      match db with
      | None => Raise no_such_table
      | Some t =>
          if negb (Nat.eqb (length cols) (length params)) then Raise bad_bindings
          else if negb (forallb (fun c => existsb (String.eqb c) (columns t)) cols)
          then Raise no_such_column
          else
            let i := next_id (rows t) in
            let r := mk_row i (bind_cells (columns t) cols params) in
            Ok (Some (mk_table (columns t) (rows t ++ [r])), Some i)
      end
  end.

(** [SELECT * FROM stories WHERE id = ?] *)
Definition select_by_id (db : database) (i : Z) : option row :=
  match db with
  | None => None
  | Some t => find (fun r => Z.eqb (row_id r) i) (rows t)
  end.

(** One column of a fetched row. *)
Definition cell (r : row) (col : string) : option pyval :=
  lookup col (row_cells r).

Definition stored_rows (db : database) : list row :=
  match db with
  | None => []
  | Some t => rows t
  end.

Definition is_insert (st : statement) : bool :=
  match st with
  | InsertInto _ _ => true
  | CreateTableIfNotExists _ => false
  end.

End Sqlite.
Import Sqlite.

(** What the outside world answers.  A call either returns or raises an
    exception deriving from [Exception]. *)
Record services : Type := mk_services {
  (** [json.load] of the configuration file *)
  config_file : result (list (string * pyval));
  (** content of the database file when the script connects *)
  database_file : database;
  (** [client.chat.completions.create]: the answer to the n-th request,
      given as the [message.content] of each of [response.choices] *)
  chat_completions_create : nat -> pystr -> pystr -> result (list pyval);
  (** [client.images.generate]: the [url] of each of [response.data] *)
  images_generate : nat -> pyval -> result (list pyval);
  (** [requests.get] followed by [raise_for_status]: the body, in chunks *)
  requests_get : pyval -> result (list pystr)
}.

Record world : Type := mk_world {
  stdin : list pystr;                    (* lines the user is going to type *)
  stdout : list pystr;                   (* what was printed, oldest first *)
  chat_requests : list pystr;            (* prompts sent to the chat endpoint *)
  image_requests : list pyval;           (* prompts sent to the image endpoint *)
  downloads : list pyval;                (* urls requested over HTTP *)
  files : list (pystr * list pystr);     (* files written: path, chunks *)
  conn : option connection
}.

Definition M (A : Type) : Type := world -> world * result A.

Definition ret {A} (a : A) : M A := fun w => (w, Ok a).

Definition raise {A} (e : exn) : M A := fun w => (w, Raise e).

Definition bind {A B} (c : M A) (k : A -> M B) : M B :=
  fun w =>
    match c w with
    | (w', Ok a) => k a w'
    | (w', Raise e) => (w', Raise e)
    end.

Notation "x <- c ;; k" := (bind c (fun x => k))
  (at level 61, c at next level, right associativity).
Notation "c ;;; k" := (bind c (fun _ => k))
  (at level 61, right associativity).

(** [try: body except Exception as e: handler e] *)
Definition try_except {A} (body : M A) (handler : exn -> M A) : M A :=
  fun w =>
    match body w with
    | (w', Ok a) => (w', Ok a)
    | (w', Raise e) => handler e w'
    end.

Definition lift {A} (r : result A) : M A := fun w => (w, r).

Definition print (line : pystr) : M unit :=
  fun w => (mk_world (stdin w) (stdout w ++ [line]) (chat_requests w)
              (image_requests w) (downloads w) (files w) (conn w), Ok tt).

Definition end_of_input : exn := mk_exn EOFError (str "EOF when reading a line").

(** [input(prompt)]: shows the prompt and reads one line. *)
Definition input (prompt : pystr) : M pystr :=
  print prompt ;;;
  fun w =>
    match stdin w with
    | [] => (w, Raise end_of_input)
    | line :: rest =>
        (mk_world rest (stdout w) (chat_requests w) (image_requests w)
           (downloads w) (files w) (conn w), Ok line)
    end.

(** [d[key]] *)
Definition getitem {V} (d : list (string * V)) (key : string) : result V :=
  match lookup key d with
  | Some v => Ok v
  | None => Raise (mk_exn KeyError (str key))
  end.

(** [a + b] where [a] is a string. *)
Definition concat (a : pystr) (b : pyval) : result pystr :=
  match b with
  | PyStr s => Ok (a ++ s)
  | PyNone =>
      Raise (mk_exn TypeError (str "can only concatenate str (not 'NoneType') to str"))
  end.

(** ** The script's functions *)

(** Lines 16-28. *)
Definition read_json_file (client : services) (file_path : pystr)
  : M (list (string * pyval)) :=
  lift (config_file client).

Definition default_model : pystr := str "gpt-3.5-turbo-1106".

Definition send_chat (client : services) (prompt model : pystr)
  : M (list pyval) :=
  fun w =>
    (mk_world (stdin w) (stdout w) (chat_requests w ++ [prompt])
       (image_requests w) (downloads w) (files w) (conn w),
     chat_completions_create client (length (chat_requests w)) prompt model).

(** Lines 30-52. *)
Definition get_chatgpt_response (client : services) (prompt model : pystr)
  : M pyval :=
  try_except
    (choices <- send_chat client prompt model ;;
     lift (first_item choices))
    (fun e =>
       print (str "Error in getting response from ChatGPT: " ++ exn_text e) ;;;
       ret PyNone).

Definition send_image (client : services) (text : pyval) : M (list pyval) :=
  fun w =>
    (mk_world (stdin w) (stdout w) (chat_requests w)
       (image_requests w ++ [text]) (downloads w) (files w) (conn w),
     images_generate client (length (image_requests w)) text).

(** Lines 89-109. *)
Definition create_dalle_image (client : services) (text : pyval) : M pyval :=
  try_except
    (data <- send_image client text ;;
     lift (first_item data))
    (fun e =>
       print (str "Error in creating image with DALL-E: " ++ exn_text e) ;;;
       ret PyNone).

Definition closed_database : exn :=
  mk_exn OperationalError (str "Cannot operate on a closed database.").

(** [cursor.execute(statement, params)] *)
Definition execute (st : statement) : M unit :=
  fun w =>
    match conn w with
    | None => (w, Raise closed_database)
    | Some c =>
        if closed c then (w, Raise closed_database)
        else
          match run st (working c) with
          | Raise e => (w, Raise e)
          | Ok (db, rowid) =>
              (mk_world (stdin w) (stdout w) (chat_requests w)
                 (image_requests w) (downloads w) (files w)
                 (Some (mk_connection
                          (* outside a transaction a statement that is not
                             an INSERT takes effect at once *)
                          (if is_insert st || in_transaction c
                           then committed c else db)
                          db
                          (is_insert st || in_transaction c)
                          (match rowid with Some i => Some i | None => lastrowid c end)
                          (executed c ++ [st])
                          false)),
               Ok tt)
          end
    end.

Definition story_columns : list string :=
  ["story_type"; "setting"; "characters"; "chat_response"; "image_url"]%string.

(** Lines 111-124. *)
Definition save_to_database (story_info : list (string * pyval))
    (chat_response image_url : pyval) : M unit :=
  story_type <- lift (getitem story_info "story_type") ;;
  setting <- lift (getitem story_info "setting") ;;
  characters <- lift (getitem story_info "characters") ;;
  execute (InsertInto story_columns
             [story_type; setting; characters; chat_response; image_url]).

(** Lines 126-131. *)
Definition download_image (client : services) (image_url : pyval)
    (image_dir : pystr) : M unit :=
  fun w =>
    match requests_get client image_url with
    | Raise e =>
        (mk_world (stdin w) (stdout w) (chat_requests w) (image_requests w)
           (downloads w ++ [image_url]) (files w) (conn w), Raise e)
    | Ok chunks =>
        (mk_world (stdin w) (stdout w) (chat_requests w) (image_requests w)
           (downloads w ++ [image_url])
           (files w ++ [(image_dir, chunks)]) (conn w), Ok tt)
    end.

(** [sqlite3.connect(db_path)] and [conn.cursor()] *)
Definition connect (client : services) : M unit :=
  fun w =>
    (mk_world (stdin w) (stdout w) (chat_requests w) (image_requests w)
       (downloads w) (files w)
       (Some (mk_connection (database_file client) (database_file client)
                false None [] false)),
     Ok tt).

Definition commit : M unit :=
  fun w =>
    match conn w with
    | None => (w, Raise closed_database)
    | Some c =>
        if closed c then (w, Raise closed_database)
        else
          (mk_world (stdin w) (stdout w) (chat_requests w) (image_requests w)
             (downloads w) (files w)
             (Some (mk_connection (working c) (working c) false (lastrowid c)
                      (executed c) false)),
           Ok tt)
    end.

(** [conn.close()]: what was not committed is dropped. *)
Definition close : M unit :=
  fun w =>
    match conn w with
    | None => (w, Ok tt)
    | Some c =>
        (mk_world (stdin w) (stdout w) (chat_requests w) (image_requests w)
           (downloads w) (files w)
           (Some (mk_connection (committed c) (committed c) false (lastrowid c)
                    (executed c) true)),
         Ok tt)
    end.

Definition cursor_lastrowid : M (option Z) :=
  fun w =>
    (w, Ok (match conn w with Some c => lastrowid c | None => None end)).

(** [str(n)] of an integer or of [None]. *)
Definition decimal (n : option Z) : pystr :=
  match n with
  | Some z => str (NilZero.string_of_int (Z.to_int z))
  | None => str "None"
  end.

Definition stories_schema : list string :=
  ["story_type"; "setting"; "characters"; "chat_response"; "image_url"]%string.

Definition nl : pystr := [ascii_of_nat 10].

(** Lines 133-206.  [OpenAI(api_key=...)] only builds the client object;
    the client of the model is [client] itself, and opening the database
    file is taken to succeed. *)
Definition main (client : services) : M unit :=
  let file_path := str "C:/Users/Denzi/Desktop/Git_Projects/StoryBook/Python/" in
  let file_name := str "data.json" in
  let image_dir := str "C:/Users/Denzi/Desktop/Git_Projects/StoryBook/Python/Images" in
  data <- read_json_file client (file_path ++ file_name) ;;
  openai_api_key <- lift (getitem data "KEY") ;;
  connect client ;;;
  execute (CreateTableIfNotExists stories_schema) ;;;
  story_type <- input (str "What kind of story do you want? ") ;;
  setting <- input (str "What is the setting of the story? ") ;;
  characters <- input (str "Who are the characters in the story? ") ;;
  let story_info :=
    [("story_type", PyStr story_type); ("setting", PyStr setting);
     ("characters", PyStr characters)]%string in
  let prompt :=
    str "Craft a childs " ++ story_type ++ str " story set in " ++ setting ++
    str " with characters " ++ characters ++ str "." in
  text_response <- get_chatgpt_response client prompt default_model ;;
  let prompt :=
    str "Images should be child approperate." ++
    (str "Summarize this text " ++ format text_response ++
     str ". Encapsulate the essence of the story with a response no more than 800 characters.") in
  let max_length := 800%Z in
  prompt <-
    lift (if (Z.of_nat (length prompt) >? max_length)%Z
          then cut_at_word prompt max_length else Ok prompt) ;;
  image_prompt <- get_chatgpt_response client prompt default_model ;;
  image_instructions <-
    (if py_truthy image_prompt
     then s <- lift (extract_image_instructions image_prompt 500) ;; ret (PyStr s)
     else ret PyNone) ;;
  line <- lift (concat (nl ++ str " image text: ") image_instructions) ;;
  print line ;;;
  image_url <-
    (if py_truthy image_instructions
     then create_dalle_image client image_instructions
     else ret PyNone) ;;
  (if py_truthy text_response && py_truthy image_url then
     save_to_database story_info text_response image_url ;;;
     commit ;;;
     print (nl ++ str "ChatGPT Response: " ++ format text_response) ;;;
     print (nl ++ str "Generated Image URL: " ++ format image_url) ;;;
     rowid <- cursor_lastrowid ;;
     let image_path := image_dir ++ str "/" ++ decimal rowid ++ str ".png" in
     download_image client image_url image_path
   else ret tt) ;;;
  close.

(** The world before a run: nothing printed, nothing sent, no connection. *)
Definition initial_world (typed : list pystr) : world :=
  mk_world typed [] [] [] [] [] None.

(** The [INSERT] statements a run has executed. *)
Definition inserts (w : world) : list statement :=
  match conn w with
  | Some c => filter is_insert (executed c)
  | None => []
  end.

(** What the database file holds after a run. *)
Definition file_rows (client : services) (w : world) : list row :=
  match conn w with
  | Some c => stored_rows (committed c)
  | None => stored_rows (database_file client)
  end.

(** The join of the spec: pieces in order, empty ones skipped, [", "]
    between two pieces that are kept. *)
Fixpoint join_nonempty (pieces : list pystr) : pystr :=
  match pieces with
  | [] => []
  | piece :: rest =>
      match piece, join_nonempty rest with
      | [], joined => joined
      | _ :: _, [] => piece
      | _ :: _, (_ :: _) as joined => piece ++ str ", " ++ joined
      end
  end.

(** [piece] is the first substring of [text] in the language of [p]: it
    is in the language, no substring that starts further left is, and it
    is empty when no substring is. *)
Definition first_match (p : pattern) (text piece : pystr) : Prop :=
  (piece = [] /\ forall j, ~ matches_at p text j) \/
  (exists pre post,
      text = pre ++ piece ++ post /\ in_pattern p piece /\
      forall j, j < length pre -> ~ matches_at p text j).

(** [found] lists the substrings of [text] in the language of [p], read
    from left to right: each is the leftmost one that starts at or after
    the end of the one before. *)
Inductive all_matches (p : pattern) : pystr -> list pystr -> Prop :=
| no_more_matches text :
    (forall j, ~ matches_at p text j) -> all_matches p text []
| next_match pre m post found :
    in_pattern p m ->
    (forall j, j < length pre -> ~ matches_at p (pre ++ m ++ post) j) ->
    all_matches p post found ->
    all_matches p (pre ++ m ++ post) (m :: found).

(** Neither a period nor a comma occurs in [w]. *)
Definition no_dot_comma (w : pystr) : Prop := ~ In "." w /\ ~ In "," w.

Definition no_dot_commab (w : pystr) : bool :=
  negb (existsb (Ascii.eqb ".") w) && negb (existsb (Ascii.eqb ",") w).

(** The fixed words of a pattern have no period and no comma, and its
    runs exclude both. *)
Definition item_clean (it : item) : bool :=
  match it with
  | Lit word => no_dot_commab word
  | NotInPlus excluded =>
      existsb (Ascii.eqb ".") excluded && existsb (Ascii.eqb ",") excluded
  end.

Definition pattern_clean (p : pattern) : bool :=
  forallb (forallb item_clean) p.

(** Every branch starts with a fixed word that is not empty. *)
Definition branch_nonempty (b : branch) : bool :=
  match b with
  | Lit (_ :: _) :: _ => true
  | NotInPlus _ :: _ => true
  | _ => false
  end.

(** No [INSERT] has run on the connection and nothing awaits a commit:
    the file holds the rows it held when the script connected. *)
Definition untouched (client : services) (oc : option connection) : Prop :=
  match oc with
  | None => True
  | Some c =>
      in_transaction c = false /\ committed c = working c /\
      stored_rows (committed c) = stored_rows (database_file client) /\
      filter is_insert (executed c) = []
  end.

(** One [INSERT] has run and was committed: the file holds the rows it
    held when the script connected, then one more. *)
Definition saved_once (client : services) (oc : option connection) : Prop :=
  exists c r st,
    oc = Some c /\
    in_transaction c = false /\ committed c = working c /\
    stored_rows (committed c) = stored_rows (database_file client) ++ [r] /\
    filter is_insert (executed c) = [st].

Definition tidy (client : services) (oc : option connection) : Prop :=
  untouched client oc \/ saved_once client oc.

(** A command that leaves the connection as it is. *)
Definition quiet {A} (c : M A) : Prop :=
  forall w, conn (fst (c w)) = conn w.

(** From a connection in [P], the command leaves one in [Q], whether it
    returns or raises. *)
Definition triple {A} (P : option connection -> Prop) (c : M A)
    (Q : option connection -> Prop) : Prop :=
  forall w, P (conn w) -> Q (conn (fst (c w))).

Definition api_key : list (string * pyval) :=
  [("KEY"%string, PyStr (str "sk-test"))].

Definition connection_error : exn := mk_exn APIError (str "Connection error.").

(** No endpoint can be reached. *)
Definition offline_client : services :=
  mk_services (Ok api_key) None
    (fun _ _ _ => Raise connection_error)
    (fun _ _ => Raise connection_error)
    (fun _ => Raise connection_error).

Definition story : pystr :=
  str "Once upon a time in a dark forest, a small woman was holding a lantern.".

(** The chat endpoint answers, the image endpoint refuses. *)
Definition no_image_client : services :=
  mk_services (Ok api_key) None
    (fun _ _ _ => Ok [PyStr story])
    (fun _ _ => Raise (mk_exn APIError (str "Billing hard limit has been reached")))
    (fun _ => Raise connection_error).

(** The first chat request fails, everything after it succeeds. *)
Definition late_client : services :=
  mk_services (Ok api_key) None
    (fun n _ _ =>
       match n with
       | 0 => Raise (mk_exn APIError (str "Rate limit reached"))
       | S _ => Ok [PyStr story]
       end)
    (fun _ _ => Ok [PyStr (str "https://images.example/1.png")])
    (fun _ => Ok [str "PNG"]).

(** Every endpoint answers. *)
Definition working_client : services :=
  mk_services (Ok api_key) None
    (fun _ _ _ => Ok [PyStr story])
    (fun _ _ => Ok [PyStr (str "https://images.example/1.png")])
    (fun _ => Ok [str "PNG"]).

Definition typed_answers : list pystr :=
  [str "fairy tale"; str "a forest"; str "a fox"].

Definition sample_text : pystr :=
  str "A tall woman standing near a castle in a dark forest holding a lantern.".

(** A branch that is a fixed word followed by a run excluding only the
    period and the comma: the shape of the setting and action branches. *)
Definition run_to_delimiter (b : branch) : bool :=
  match b with
  | [Lit _; NotInPlus excluded] =>
      forallb (fun x => Ascii.eqb x "." || Ascii.eqb x ",") excluded
  | _ => false
  end.

(** A branch whose fixed first word starts with a character that is
    not a space. *)
Definition starts_with_letter (b : branch) : bool :=
  match b with
  | Lit (c :: _) :: _ => negb (Ascii.eqb c " ")
  | _ => false
  end.

(** [w] is in the language of one of the three patterns. *)
Definition a_phrase (w : pystr) : Prop :=
  in_pattern setting_pattern w \/ in_pattern characters_pattern w \/
  in_pattern action_pattern w.

(** What a run leaves behind, apart from the console: the connection,
    the requests sent to the two endpoints, the urls fetched and the
    files written. *)
Definition view_t : Type :=
  (option connection * list pystr * list pyval * list pyval *
   list (pystr * list pystr))%type.

Definition view (w : world) : view_t :=
  (conn w, chat_requests w, image_requests w, downloads w, files w).

(** A command that changes nothing of the view. *)
Definition silent {A} (c : M A) : Prop :=
  forall w, view (fst (c w)) = view w.

(** What a command returns, when it returns, satisfies [F]. *)
Definition returns {A} (c : M A) (F : A -> Prop) : Prop :=
  forall w, match snd (c w) with Ok a => F a | Raise _ => True end.

(** From a world in [P], the command either returns [a] in a world in
    [Qok a] or raises in a world in [Qerr]. *)
Definition hoare {A} (P : world -> Prop) (c : M A)
    (Qok : A -> world -> Prop) (Qerr : world -> Prop) : Prop :=
  forall w, P w ->
    match c w with
    | (w', Ok a) => Qok a w'
    | (w', Raise _) => Qerr w'
    end.

Definition on (p : view_t -> Prop) : world -> Prop := fun w => p (view w).

(** A prompt the image endpoint may receive: a non-empty string of at
    most 500 characters without a period. *)
Definition image_prompt_ok (v : pyval) : Prop :=
  exists s, v = PyStr s /\ s <> [] /\ length s <= 500 /\ ~ In "." s.

(** What [extract_image_instructions(image_prompt) if image_prompt else
    None] can be. *)
Definition instructions_ok (v : pyval) : Prop :=
  v = PyNone \/ exists s, v = PyStr s /\ length s <= 500 /\ ~ In "." s.

Inductive chat_stage : Type := NoChat | OneChat | TwoChats.

Definition chats_at (st : chat_stage) (chats : list pystr) : Prop :=
  match st with
  | NoChat => chats = []
  | OneChat => length chats = 1
  | TwoChats => exists a b, chats = [a; b] /\ length b <= 800
  end.

(** The state of a run between its connection and its save block. *)
Definition before_save (client : services) (st : chat_stage) (img : bool)
    (v : view_t) : Prop :=
  let '(oc, chats, images, dls, fs) := v in
  (exists c, oc = Some c /\ closed c = false /\ untouched client (Some c)) /\
  chats_at st chats /\
  (if img then length images <= 1 /\ Forall image_prompt_ok images
   else images = []) /\
  dls = [] /\ fs = [].

(** What holds of a run wherever it stops. *)
Definition run_facts (client : services) (v : view_t) : Prop :=
  let '(oc, chats, images, dls, fs) := v in
  length chats <= 2 /\
  Forall (fun p => length p <= 800) (skipn 1 chats) /\
  length images <= 1 /\ Forall image_prompt_ok images /\
  tidy client oc /\
  (dls = [] \/ saved_once client oc) /\
  length dls <= 1 /\ length fs <= length dls.

(** The first chat request gets no text: the call fails, or answers
    without a choice, or with an empty or absent content. *)
Definition no_story (client : services) : Prop :=
  forall prompt model,
    match chat_completions_create client 0 prompt model with
    | Ok (content :: _) => py_truthy content = false
    | _ => True
    end.

(** No image request gets a url. *)
Definition no_image (client : services) : Prop :=
  forall n text,
    match images_generate client n text with
    | Ok (url :: _) => py_truthy url = false
    | _ => True
    end.

(** No INSERT has run, nothing was fetched, no file was written. *)
Definition nothing_saved (client : services) (v : view_t) : Prop :=
  let '(oc, _, _, dls, fs) := v in
  untouched client oc /\ dls = [] /\ fs = [].

(** Nothing has happened yet: no connection, no request, no file. *)
Definition not_connected (v : view_t) : Prop := v = (None, [], [], [], []).

Definition not_closed (oc : option connection) : Prop :=
  match oc with
  | None => True
  | Some c => closed c = false
  end.

Definition aborted (client : services) (v : view_t) : Prop :=
  run_facts client v /\ not_closed (fst (fst (fst (fst v)))).

Definition finished (client : services) (v : view_t) : Prop :=
  run_facts client v /\
  exists c, fst (fst (fst (fst v))) = Some c /\ closed c = false.

Definition completed (client : services) (v : view_t) : Prop :=
  run_facts client v /\
  exists c, fst (fst (fst (fst v))) = Some c /\ closed c = true.

(** A connection to a database that already holds one story. *)
Definition earlier_row : row :=
  mk_row 7 [("story_type"%string, PyStr (str "fable"));
            ("setting"%string, PyStr (str "a farm"));
            ("characters"%string, PyStr (str "a hen"));
            ("chat_response"%string, PyStr (str "A hen lived on a farm."));
            ("image_url"%string, PyStr (str "https://images.example/7.png"))].

Definition one_story : connection :=
  mk_connection (Some (mk_table stories_schema [earlier_row]))
    (Some (mk_table stories_schema [earlier_row])) false None [] false.

Definition connected_world : world :=
  mk_world [] [] [] [] [] [] (Some one_story).

Definition fox_story_info : list (string * pyval) :=
  [("story_type"%string, PyStr (str "fairy tale"));
   ("setting"%string, PyStr (str "a forest"));
   ("characters"%string, PyStr (str "a fox"))].

(** The configuration file has no KEY entry. *)
Definition keyless_client : services :=
  mk_services (Ok [("ORG"%string, PyStr (str "acme"))]) None
    (fun _ _ _ => Ok [PyStr story])
    (fun _ _ => Ok [PyStr (str "https://images.example/1.png")])
    (fun _ => Ok [str "PNG"]).

(** ** The phrases of the spec, in its own words *)

(** One or more characters, none of them a period or a comma. *)
Definition plain_run (u : pystr) : Prop :=
  u <> [] /\ ~ In "." u /\ ~ In "," u.

(** A phrase introduced by [word]: the word, then a plain run. *)
Definition introduced_by (word w : pystr) : Prop :=
  exists u, plain_run u /\ w = word ++ u.

(** "a <adjective> noun": "a ", a plain run, a space and the noun. *)
Definition described (noun w : pystr) : Prop :=
  exists u, plain_run u /\ w = str "a " ++ u ++ str " " ++ noun.

(** Phrases introduced by "in a", "on a" or "at the". *)
Definition setting_phrases : list (pystr -> Prop) :=
  map introduced_by [str "in a "; str "on a "; str "at the "].

(** "a <adjective> man/woman/person/creature". *)
Definition character_phrases : list (pystr -> Prop) :=
  map described [str "man"; str "woman"; str "person"; str "creature"].

(** Phrases beginning "holding a", "standing", "sitting" or "lying". *)
Definition action_phrases : list (pystr -> Prop) :=
  map introduced_by
    [str "holding a "; str "standing "; str "sitting "; str "lying "].

(** [w] is a phrase of one of the alternatives. *)
Definition any_of (langs : list (pystr -> Prop)) (w : pystr) : Prop :=
  exists L, In L langs /\ L w.

(** A word of [L] starts at offset [j] of [text]. *)
Definition starts_at (L : pystr -> Prop) (text : pystr) (j : nat) : Prop :=
  j <= length text /\ exists w t, skipn j text = w ++ t /\ L w.

(** [m] is the phrase taken at the head of [s]: it belongs to the first
    alternative, in the order they are written, that has a phrase at
    the head of [s], and no phrase of that alternative there is longer. *)
Definition preferred (langs : list (pystr -> Prop)) (s m : pystr) : Prop :=
  exists before L after,
    langs = before ++ L :: after /\
    (forall L', In L' before -> forall w t, s = w ++ t -> ~ L' w) /\
    L m /\ (exists t, s = m ++ t) /\
    (forall w t, s = w ++ t -> L w -> length w <= length m).

(** [piece] is the first phrase of [text]: no phrase starts further
    left, and it is the one taken where it starts; the empty string
    when [text] has no phrase. *)
Definition first_piece (langs : list (pystr -> Prop)) (text piece : pystr)
  : Prop :=
  (piece = [] /\ forall j, ~ starts_at (any_of langs) text j) \/
  (exists pre post,
      text = pre ++ piece ++ post /\
      (forall j, j < length pre -> ~ starts_at (any_of langs) text j) /\
      preferred langs (piece ++ post) piece).

(** [found] is the list of all the phrases of [text], from left to
    right: each is the first phrase of what follows the one before. *)
Inductive all_pieces (langs : list (pystr -> Prop))
  : pystr -> list pystr -> Prop :=
| pieces_done text :
    (forall j, ~ starts_at (any_of langs) text j) ->
    all_pieces langs text []
| pieces_next text pre m post found :
    text = pre ++ m ++ post ->
    (forall j, j < length pre -> ~ starts_at (any_of langs) text j) ->
    preferred langs (m ++ post) m ->
    all_pieces langs post found ->
    all_pieces langs text (m :: found).

(** The alternatives have the same phrases, one by one. *)
Definition same_langs (ls ls' : list (pystr -> Prop)) : Prop :=
  Forall2 (fun L L' => forall w, L w <-> L' w) ls ls'.

(** A branch with one run: a fixed word, a run, and maybe a fixed word. *)
Definition one_run (b : branch) : bool :=
  match b with
  | [Lit _; NotInPlus _] => true
  | [Lit _; NotInPlus _; Lit _] => true
  | _ => false
  end.

(** * Properties *)

(** ** Strings *)

Section StringFacts.

Lemma join_cons_cons sep x y rest :
  join sep (x :: y :: rest) = x ++ sep ++ join sep (y :: rest).
Proof. reflexivity. Qed.

Lemma join_app sep xs ys :
  xs <> [] -> ys <> [] ->
  join sep (xs ++ ys) = join sep xs ++ sep ++ join sep ys.
Proof.
  induction xs as [|x xs IH]; intros Hx Hy; [contradiction|].
  destruct xs as [|x' xs].
  - simpl. destruct ys; [contradiction|reflexivity].
  - change ((x :: x' :: xs) ++ ys) with (x :: x' :: (xs ++ ys)).
    rewrite !join_cons_cons.
    change (x' :: xs ++ ys) with ((x' :: xs) ++ ys).
    rewrite IH by (trivial; discriminate).
    now rewrite <- !app_assoc.
Qed.

Lemma truthy_true_iff s : truthy s = true <-> s <> [].
Proof. destruct s; simpl; split; try discriminate; intuition congruence. Qed.

Lemma rsplit_last_some sep s h t :
  rsplit_last sep s = Some (h, t) -> s = h ++ sep :: t /\ ~ In sep t.
Proof.
  revert h t. induction s as [|c s IH]; intros h t; simpl; [discriminate|].
  destruct (rsplit_last sep s) as [[h' t']|] eqn:E.
  - intros [= <- <-]. destruct (IH _ _ eq_refl) as [-> Hn]. now split.
  - destruct (Ascii.eqb c sep) eqn:Ec; [|discriminate].
    intros [= <- <-]. apply Ascii.eqb_eq in Ec. subst c. split; trivial.
    clear IH. induction s as [|d s IHs]; simpl in *; [tauto|].
    destruct (rsplit_last sep s) as [[? ?]|]; [discriminate|].
    destruct (Ascii.eqb d sep) eqn:Ed; [discriminate|].
    apply Ascii.eqb_neq in Ed. intros [?|?]; [congruence|]. now apply IHs.
Qed.

Lemma rsplit_last_none sep s : rsplit_last sep s = None -> ~ In sep s.
Proof.
  induction s as [|c s IH]; simpl; [tauto|].
  destruct (rsplit_last sep s) as [[? ?]|]; [discriminate|].
  destruct (Ascii.eqb c sep) eqn:Ec; [discriminate|].
  apply Ascii.eqb_neq in Ec. intros _ [?|?]; [congruence|]. now apply IH.
Qed.

Lemma slice_to_nonneg s n :
  (0 <= n)%Z -> slice_to s n = firstn (Z.to_nat n) s.
Proof.
  intros H. unfold slice_to. destruct (0 <=? n)%Z eqn:E; trivial.
  apply Z.leb_gt in E. lia.
Qed.

Lemma slice_to_prefix s n : prefix_of (slice_to s n) s.
Proof.
  unfold slice_to.
  destruct (0 <=? n)%Z; eexists; symmetry; apply firstn_skipn.
Qed.

Lemma prefix_of_trans a b c : prefix_of a b -> prefix_of b c -> prefix_of a c.
Proof.
  intros [r ->] [r' ->]. exists (r ++ r'). now rewrite app_assoc.
Qed.

(** The cut never fails, and what it returns is the slice up to its last
    space, or the whole slice when it has no space. *)
Lemma cut_at_word_spec s n :
  exists r, cut_at_word s n = Ok r /\
    ((exists tail, slice_to s n = r ++ " " :: tail /\ ~ In " " tail) \/
     (r = slice_to s n /\ ~ In " " r)).
Proof.
  unfold cut_at_word, rsplit1.
  destruct (rsplit_last " " (slice_to s n)) as [[h t]|] eqn:E.
  - exists h. split; trivial. left. exists t. now apply rsplit_last_some.
  - exists (slice_to s n). split; trivial. right. split; trivial.
    now apply rsplit_last_none.
Qed.

End StringFacts.

(** ** The matcher against the language of a pattern *)

Section RegexFacts.

Lemma firstn_plus {A} (j r : nat) (s : list A) :
  firstn (j + r) s = firstn j s ++ firstn r (skipn j s).
Proof.
  revert s. induction j as [|j IH]; intros s; [reflexivity|].
  destruct s as [|c s]; simpl.
  - now rewrite firstn_nil.
  - now rewrite IH.
Qed.

Lemma skipn_length_app {A} (a b : list A) : skipn (length a) (a ++ b) = b.
Proof. induction a; simpl; trivial. Qed.

Lemma starts_with_true word s :
  starts_with word s = true -> s = word ++ skipn (length word) s.
Proof.
  revert s. induction word as [|a word IH]; intros s; [reflexivity|].
  destruct s as [|c s]; simpl; [discriminate|].
  intros H. apply andb_prop in H as [Ha Hw].
  apply Ascii.eqb_eq in Ha. subst. now rewrite <- IH.
Qed.

Lemma starts_with_app word t : starts_with word (word ++ t) = true.
Proof.
  induction word as [|a word IH]; simpl; trivial.
  now rewrite Ascii.eqb_refl.
Qed.

Lemma span_le excluded s : span excluded s <= length s.
Proof.
  induction s as [|c s IH]; simpl; trivial.
  destruct (excludes excluded c); lia.
Qed.

Lemma span_firstn excluded s n :
  n <= span excluded s ->
  Forall (fun c => excludes excluded c = true) (firstn n s).
Proof.
  revert n. induction s as [|c s IH]; intros n Hn.
  - rewrite firstn_nil. constructor.
  - destruct n as [|n]; simpl; [constructor|].
    simpl in Hn. destruct (excludes excluded c) eqn:E; [|lia].
    constructor; trivial. apply IH. lia.
Qed.

Lemma span_app excluded u t :
  Forall (fun c => excludes excluded c = true) u ->
  length u <= span excluded (u ++ t).
Proof.
  induction 1 as [|c u Hc _ IH]; simpl; [lia|].
  rewrite Hc. lia.
Qed.

Lemma backtrack_some k n m :
  backtrack k n = Some m ->
  exists j r, 1 <= j <= n /\ k j = Some r /\ m = j + r.
Proof.
  induction n as [|n IH]; simpl; [discriminate|].
  destruct (k (S n)) as [r|] eqn:E.
  - intros [= <-]. exists (S n), r. repeat split; trivial; lia.
  - intros H. destruct (IH H) as (j & r & Hj & Hk & ->).
    exists j, r. repeat split; trivial; lia.
Qed.

Lemma backtrack_none k n :
  backtrack k n = None -> forall j, 1 <= j <= n -> k j = None.
Proof.
  induction n as [|n IH]; simpl; intros H j Hj; [lia|].
  destruct (k (S n)) eqn:E; [discriminate|].
  destruct (Nat.eq_dec j (S n)) as [->|Hne]; trivial.
  apply IH; trivial. lia.
Qed.

(** A match of a branch is a prefix of the subject and is in the
    language of the branch. *)
Lemma match_branch_sound b s n :
  match_branch b s = Some n -> n <= length s /\ in_branch b (firstn n s).
Proof.
  revert s n. induction b as [|it rest IH]; intros s n.
  - simpl. intros [= <-]. split; [lia|reflexivity].
  - destruct it as [word|excluded]; simpl.
    + destruct (starts_with word s) eqn:E; [|discriminate].
      destruct (match_branch rest (skipn (length word) s)) as [r|] eqn:E2;
        [|discriminate].
      intros [= <-]. apply IH in E2 as [Hle Hin].
      apply starts_with_true in E.
      rewrite length_skipn in Hle.
      assert (Hlen : length word <= length s).
      { rewrite E, length_app. lia. }
      split; [lia|].
      exists (firstn r (skipn (length word) s)). split; trivial.
      rewrite firstn_plus. f_equal.
      rewrite E at 1. rewrite firstn_app, Nat.sub_diag, firstn_all.
      simpl. apply app_nil_r.
    + intros H. apply backtrack_some in H as (j & r & Hj & Hk & ->).
      apply IH in Hk as [Hle Hin].
      pose proof (span_le excluded s) as Hs.
      rewrite length_skipn in Hle.
      split; [lia|].
      exists (firstn j s), (firstn r (skipn j s)).
      split; [apply firstn_plus|]. split.
      * intros Hnil. apply (f_equal (@length ascii)) in Hnil.
        rewrite length_firstn in Hnil. simpl in Hnil. lia.
      * split; trivial. apply span_firstn. lia.
Qed.

(** When a word of the language of a branch stands at the head of the
    subject, the branch matches there. *)
Lemma match_branch_complete b w t :
  in_branch b w -> exists n, match_branch b (w ++ t) = Some n.
Proof.
  revert w t. induction b as [|it rest IH]; intros w t Hin.
  - exists 0. reflexivity.
  - destruct it as [word|excluded]; simpl in Hin.
    + destruct Hin as (w' & -> & Hin). simpl.
      rewrite <- app_assoc, starts_with_app, skipn_length_app.
      destruct (IH w' t Hin) as [n ->]. eexists; reflexivity.
    + destruct Hin as (u & w' & -> & Hne & Hall & Hin). simpl.
      destruct (backtrack _ _) as [m|] eqn:E; [eexists; reflexivity|].
      exfalso. apply backtrack_none with (j := length u) in E.
      * rewrite <- app_assoc, skipn_length_app in E.
        destruct (IH w' t Hin) as [n Hn]. congruence.
      * split.
        -- destruct u; [contradiction|simpl; lia].
        -- rewrite <- app_assoc. now apply span_app.
Qed.

Lemma match_here_sound p s n :
  match_here p s = Some n -> n <= length s /\ in_pattern p (firstn n s).
Proof.
  induction p as [|b p IH]; simpl; [discriminate|].
  destruct (match_branch b s) as [m|] eqn:E.
  - intros [= <-]. apply match_branch_sound in E as [Hle Hin].
    split; trivial. now left.
  - intros H. destruct (IH H) as [Hle Hin]. split; trivial. now right.
Qed.

Lemma match_here_complete p w t :
  in_pattern p w -> exists n, match_here p (w ++ t) = Some n.
Proof.
  induction 1 as [b p Hb|b p _ IH]; simpl.
  - destruct (match_branch_complete b w t Hb) as [n ->]. eexists; reflexivity.
  - destruct (match_branch b (w ++ t)); [eexists; reflexivity|exact IH].
Qed.

Lemma match_here_none p s : match_here p s = None -> ~ matches_at p s 0.
Proof.
  intros H (_ & w & t & Hs & Hin). simpl in Hs. subst s.
  destruct (match_here_complete p w t Hin) as [n Hn]. congruence.
Qed.

Lemma matches_at_S p c s j : matches_at p (c :: s) (S j) <-> matches_at p s j.
Proof. unfold matches_at. simpl. split; intros [H1 H2]; split; trivial; lia. Qed.

Lemma matches_at_bound p s j : matches_at p s j -> j <= length s.
Proof. now intros [H _]. Qed.

(** [re.search] finds a word of the language, and nothing of the
    language starts further left. *)
Lemma search_pos_some p s i n :
  search_pos p s = Some (i, n) ->
  i + n <= length s /\ in_pattern p (firstn n (skipn i s)) /\
  forall j, j < i -> ~ matches_at p s j.
Proof.
  revert i n. induction s as [|c s IH]; intros i n; simpl.
  - destruct (match_here p []) as [m|] eqn:E; [|discriminate].
    intros [= <- <-]. apply match_here_sound in E as [Hle Hin].
    repeat split; trivial. intros j Hj. lia.
  - destruct (match_here p (c :: s)) as [m|] eqn:E.
    + intros [= <- <-]. apply match_here_sound in E as [Hle Hin].
      repeat split; trivial. intros j Hj. lia.
    + destruct (search_pos p s) as [[i' n']|] eqn:E2; [|discriminate].
      intros [= <- <-]. destruct (IH _ _ eq_refl) as (Hle & Hin & Hleft).
      repeat split; [simpl; lia|exact Hin|].
      intros [|j] Hj; [now apply match_here_none|].
      rewrite matches_at_S. apply Hleft. lia.
Qed.

Lemma search_pos_none p s :
  search_pos p s = None -> forall j, ~ matches_at p s j.
Proof.
  induction s as [|c s IH]; simpl.
  - destruct (match_here p []) eqn:E; [discriminate|].
    intros _ j Hj. pose proof (matches_at_bound _ _ _ Hj) as Hb.
    simpl in Hb. assert (j = 0) by lia. subst.
    now apply match_here_none in Hj.
  - destruct (match_here p (c :: s)) eqn:E; [discriminate|].
    destruct (search_pos p s) as [[i' n']|] eqn:E2; [discriminate|].
    intros _ [|j]; [now apply match_here_none|].
    rewrite matches_at_S. now apply IH.
Qed.

Lemma substring_matches_at p w s :
  substring_of w s -> in_pattern p w -> exists j, matches_at p s j.
Proof.
  intros (pre & post & ->) Hin. exists (length pre). split.
  - rewrite length_app. lia.
  - exists w, post. split; trivial. apply skipn_length_app.
Qed.

Lemma matches_at_substring p s j :
  matches_at p s j -> exists w, substring_of w s /\ in_pattern p w.
Proof.
  intros (_ & w & t & Hs & Hin). exists w. split; trivial.
  exists (firstn j s), t. rewrite <- Hs. symmetry. apply firstn_skipn.
Qed.

(** [re.search] fails exactly when no substring is in the language. *)
Lemma search_pos_none_iff p s :
  search_pos p s = None <->
  (forall w, substring_of w s -> ~ in_pattern p w).
Proof.
  split.
  - intros H w Hw Hin. destruct (substring_matches_at p w s Hw Hin) as [j Hj].
    exact (search_pos_none p s H j Hj).
  - intros H. destruct (search_pos p s) as [[i n]|] eqn:E; trivial.
    exfalso. apply search_pos_some in E as (Hle & Hin & _).
    apply (H _ ) in Hin; trivial.
    exists (firstn i s), (skipn n (skipn i s)).
    now rewrite !firstn_skipn.
Qed.

Lemma search_first_match p text :
  first_match p text (group_or_empty (search p text)).
Proof.
  unfold search. destruct (search_pos p text) as [[i n]|] eqn:E.
  - apply search_pos_some in E as (Hle & Hin & Hleft). right. simpl.
    exists (firstn i text), (skipn n (skipn i text)).
    rewrite firstn_skipn, firstn_skipn. split; trivial. split; trivial.
    intros j Hj. apply Hleft. rewrite length_firstn in Hj. lia.
  - left. split; trivial. now apply search_pos_none.
Qed.

Lemma in_branch_nonempty b w :
  branch_nonempty b = true -> in_branch b w -> w <> [].
Proof.
  destruct b as [|[word|excluded] rest]; simpl; try discriminate.
  - destruct word as [|a word]; try discriminate.
    intros _ (w' & -> & _). discriminate.
  - intros _ (u & w' & -> & Hne & _). destruct u; [contradiction|discriminate].
Qed.

Lemma in_pattern_nonempty p w :
  forallb branch_nonempty p = true -> in_pattern p w -> w <> [].
Proof.
  intros Hp Hin. apply Exists_exists in Hin as (b & Hb & Hw).
  rewrite forallb_forall in Hp. eapply in_branch_nonempty; eauto.
Qed.

Lemma all_matches_cons p c s found :
  ~ matches_at p (c :: s) 0 ->
  all_matches p s found -> all_matches p (c :: s) found.
Proof.
  intros H0 H. inversion H as [? Hno|pre m post rest Hin Hleft Hrest]; subst.
  - constructor. intros [|j]; trivial. rewrite matches_at_S. apply Hno.
  - change (c :: pre ++ m ++ post) with ((c :: pre) ++ m ++ post).
    constructor; trivial. intros [|j] Hj; [exact H0|].
    change ((c :: pre) ++ m ++ post) with (c :: pre ++ m ++ post).
    rewrite matches_at_S. apply Hleft. simpl in Hj. lia.
Qed.

(** [re.findall] lists the matches from left to right, each the
    leftmost one after the end of the previous one. *)
Lemma findall_from_all_matches p s skip :
  forallb branch_nonempty p = true ->
  skip <= length s ->
  all_matches p (skipn skip s) (findall_from p s skip).
Proof.
  intros Hne. revert skip. induction s as [|c s IH]; intros skip Hs.
  - simpl in Hs. assert (skip = 0) by lia. subst. simpl.
    destruct (match_here p []) as [n|] eqn:E.
    + apply match_here_sound in E as [_ Hin]. rewrite firstn_nil in Hin.
      now apply in_pattern_nonempty in Hin.
    + constructor. intros j Hj.
      pose proof (matches_at_bound _ _ _ Hj) as Hb. simpl in Hb.
      assert (j = 0) by lia. subst. now apply match_here_none in Hj.
  - destruct skip as [|k].
    + cbn [skipn findall_from].
      destruct (match_here p (c :: s)) as [n|] eqn:E.
      * apply match_here_sound in E as [Hle Hin].
        destruct n as [|n].
        { now apply in_pattern_nonempty in Hin. }
        cbn [pred]. simpl in Hle.
        assert (Hk : n <= length s) by lia.
        specialize (IH n Hk).
        rewrite <- (firstn_skipn (S n) (c :: s)) at 1.
        change (skipn (S n) (c :: s)) with (skipn n s).
        apply (next_match p [] (firstn (S n) (c :: s)) (skipn n s)); trivial.
        intros j Hj. simpl in Hj. lia.
      * apply all_matches_cons; [now apply match_here_none|].
        apply (IH 0). lia.
    + cbn [skipn findall_from]. apply IH. simpl in Hs. lia.
Qed.

Lemma findall_all_matches p s :
  forallb branch_nonempty p = true -> all_matches p s (findall p s).
Proof.
  intros Hne. apply (findall_from_all_matches p s 0 Hne). lia.
Qed.

Lemma all_matches_in_pattern p s found :
  all_matches p s found -> Forall (in_pattern p) found.
Proof. induction 1; constructor; trivial. Qed.

Lemma existsb_eqb_false a l : existsb (Ascii.eqb a) l = false -> ~ In a l.
Proof.
  intros H Hin. assert (existsb (Ascii.eqb a) l = true); [|congruence].
  apply existsb_exists. exists a. split; trivial. apply Ascii.eqb_refl.
Qed.

Lemma no_dot_commab_true w : no_dot_commab w = true -> no_dot_comma w.
Proof.
  unfold no_dot_commab, no_dot_comma. intros H.
  apply andb_prop in H as [H1 H2].
  apply negb_true_iff in H1, H2. split; now apply existsb_eqb_false.
Qed.

Lemma no_dot_comma_app u v :
  no_dot_comma u -> no_dot_comma v -> no_dot_comma (u ++ v).
Proof.
  unfold no_dot_comma. intros [Hu1 Hu2] [Hv1 Hv2].
  split; intros Hin; apply in_app_or in Hin; tauto.
Qed.

Lemma excluded_run_clean excluded u :
  existsb (Ascii.eqb ".") excluded && existsb (Ascii.eqb ",") excluded = true ->
  Forall (fun c => excludes excluded c = true) u -> no_dot_comma u.
Proof.
  intros H Hall. apply andb_prop in H as [Hd Hc].
  rewrite Forall_forall in Hall. unfold excludes in Hall.
  split; intros Hin; apply Hall in Hin; apply negb_true_iff in Hin; congruence.
Qed.

Lemma in_branch_clean b w :
  forallb item_clean b = true -> in_branch b w -> no_dot_comma w.
Proof.
  revert w. induction b as [|it rest IH]; intros w Hc Hin.
  - simpl in Hin. subst. split; intros [].
  - simpl in Hc. apply andb_prop in Hc as [Hit Hrest].
    destruct it as [word|excluded]; simpl in Hin, Hit.
    + destruct Hin as (w' & -> & Hin).
      apply no_dot_comma_app; [now apply no_dot_commab_true|now apply IH].
    + destruct Hin as (u & w' & -> & _ & Hall & Hin).
      apply no_dot_comma_app; [now apply excluded_run_clean with excluded|now apply IH].
Qed.

Lemma in_pattern_clean p w :
  pattern_clean p = true -> in_pattern p w -> no_dot_comma w.
Proof.
  intros Hp Hin. apply Exists_exists in Hin as (b & Hb & Hw).
  unfold pattern_clean in Hp. rewrite forallb_forall in Hp.
  eapply in_branch_clean; eauto.
Qed.

End RegexFacts.

(** ** The instruction extractor *)

Section Extractor.

Lemma setting_pattern_nonempty : forallb branch_nonempty setting_pattern = true.
Proof. reflexivity. Qed.

Lemma characters_pattern_nonempty :
  forallb branch_nonempty characters_pattern = true.
Proof. reflexivity. Qed.

Lemma action_pattern_nonempty : forallb branch_nonempty action_pattern = true.
Proof. reflexivity. Qed.

Lemma join_truthy_head sep y rest : y <> [] -> join sep (y :: rest) <> [].
Proof.
  intros Hy. destruct rest; simpl; trivial.
  intros H. apply app_eq_nil in H. tauto.
Qed.

Lemma filter_None_all parts : Forall (fun x => x <> []) (filter_None parts).
Proof.
  apply Forall_forall. intros x Hx. apply filter_In in Hx as [_ Hx].
  now apply truthy_true_iff.
Qed.

Lemma filter_None_id parts :
  Forall (fun x => x <> []) parts -> filter_None parts = parts.
Proof.
  unfold filter_None. induction 1 as [|x parts Hx _ IH]; simpl; trivial.
  apply truthy_true_iff in Hx. now rewrite Hx, IH.
Qed.

(** The source's [", ".join(filter(None, parts))] is the spec's join of
    the non-empty pieces. *)
Lemma join_filter_None parts :
  join (str ", ") (filter_None parts) = join_nonempty parts.
Proof.
  induction parts as [|piece rest IH]; trivial.
  change (filter_None (piece :: rest))
    with (if truthy piece then piece :: filter_None rest else filter_None rest).
  cbn [join_nonempty]. rewrite <- IH.
  destruct piece as [|a piece]; cbn [truthy]; trivial.
  pose proof (filter_None_all rest) as Hall.
  destruct (filter_None rest) as [|y kept]; trivial.
  rewrite join_cons_cons.
  inversion Hall as [|? ? Hy _]; subst.
  pose proof (join_truthy_head (str ", ") y kept Hy) as Hj.
  destruct (join (str ", ") (y :: kept)) eqn:E; [now elim Hj|reflexivity].
Qed.

Lemma join_flatten sep x found z :
  Forall (fun c => c <> []) found ->
  join sep (filter_None [x; join sep found; z]) =
  join sep (filter_None (x :: found ++ [z])).
Proof.
  intros Hall.
  assert (Hmid : filter_None (found ++ [z]) = found ++ filter_None [z]).
  { unfold filter_None. rewrite filter_app.
    f_equal. now apply filter_None_id. }
  change (filter_None (x :: found ++ [z]))
    with (if truthy x then x :: filter_None (found ++ [z])
          else filter_None (found ++ [z])).
  rewrite Hmid.
  change (filter_None [x; join sep found; z])
    with (if truthy x
          then x :: (if truthy (join sep found)
                     then join sep found :: filter_None [z]
                     else filter_None [z])
          else (if truthy (join sep found)
                then join sep found :: filter_None [z]
                else filter_None [z])).
  destruct found as [|c found].
  - reflexivity.
  - assert (Hc : c <> []) by now inversion Hall.
    pose proof (join_truthy_head sep c found Hc) as Hj.
    apply truthy_true_iff in Hj. rewrite Hj.
    assert (Hne : c :: found <> []) by discriminate.
    destruct (truthy x), z as [|a z]; cbn [filter_None filter truthy].
    + rewrite app_nil_r.
      change (x :: c :: found) with ([x] ++ c :: found).
      rewrite join_app by (trivial; discriminate).
      change [x; join sep (c :: found)] with ([x] ++ [join sep (c :: found)]).
      now rewrite join_app by discriminate.
    + change (x :: (c :: found) ++ [a :: z])
        with ([x] ++ (c :: found) ++ [a :: z]).
      rewrite join_app by (try discriminate; destruct found; discriminate).
      rewrite join_app by (trivial; discriminate).
      reflexivity.
    + now rewrite app_nil_r.
    + rewrite join_app by (trivial; discriminate). reflexivity.
Qed.

Lemma instruction_no_cut text (extra : nat) :
  extract_image_instructions (PyStr text)
    (Z.of_nat (length (instruction text) + extra)) = Ok (instruction text).
Proof.
  unfold extract_image_instructions.
  destruct (Z.gtb_spec (Z.of_nat (length (instruction text)))
              (Z.of_nat (length (instruction text) + extra))); trivial.
  lia.
Qed.

Lemma findall_nonempty text :
  Forall (fun c => c <> []) (findall characters_pattern text).
Proof.
  pose proof (findall_all_matches characters_pattern text
                characters_pattern_nonempty) as H.
  apply all_matches_in_pattern in H.
  eapply Forall_impl; [|exact H].
  intros w Hw. now apply in_pattern_nonempty in Hw.
Qed.

Lemma first_match_clean p text piece :
  pattern_clean p = true -> first_match p text piece -> no_dot_comma piece.
Proof.
  intros Hp [[-> _]|(pre & post & _ & Hin & _)].
  - split; intros [].
  - now apply in_pattern_clean with p.
Qed.

End Extractor.

(** C2, for a max_length that is not negative: a joined instruction
    longer than max_length is returned cut to at most max_length
    characters, as a prefix of the joined instruction; when the first
    max_length characters hold a space the result stops just before the
    last of them, and otherwise it is those max_length characters. *)
Theorem truncation_bounds : forall text max_length,
  (0 <= max_length)%Z ->
  (Z.of_nat (length (instruction text)) > max_length)%Z ->
  exists r,
    extract_image_instructions (PyStr text) max_length = Ok r /\
    (Z.of_nat (length r) <= max_length)%Z /\
    prefix_of r (instruction text) /\
    (In " " (firstn (Z.to_nat max_length) (instruction text)) ->
     exists tail,
       firstn (Z.to_nat max_length) (instruction text) = r ++ " " :: tail /\
       ~ In " " tail) /\
    (~ In " " (firstn (Z.to_nat max_length) (instruction text)) ->
     r = firstn (Z.to_nat max_length) (instruction text) /\
     Z.of_nat (length r) = max_length).
Proof.
  intros text n Hn Hlong.
  unfold extract_image_instructions.
  destruct (Z.gtb_spec (Z.of_nat (length (instruction text))) n) as [_|Hle];
    [|lia].
  destruct (cut_at_word_spec (instruction text) n) as (r & Hr & Hshape).
  exists r. split; trivial.
  pose proof (slice_to_prefix (instruction text) n) as Hpre.
  rewrite slice_to_nonneg in * by trivial.
  set (cut := firstn (Z.to_nat n) (instruction text)) in *.
  assert (Hcut : length cut = Z.to_nat n).
  { unfold cut. rewrite length_firstn. lia. }
  destruct Hshape as [(tail & Hsplit & Htail)|[-> Hnone]].
  - split.
    { apply (f_equal (@length ascii)) in Hsplit.
      rewrite length_app in Hsplit. simpl in Hsplit. lia. }
    split.
    { apply prefix_of_trans with cut; trivial.
      exists (" " :: tail). exact Hsplit. }
    split.
    + intros _. exists tail. now split.
    + intros Hno. exfalso. apply Hno. rewrite Hsplit.
      apply in_or_app. right. now left.
  - split; [lia|]. split; trivial. split.
    + intros Hin. contradiction.
    + intros _. split; trivial. lia.
Qed.

Lemma truncation_bounds_witness :
  exists r,
    extract_image_instructions (PyStr (str "in a forest, a tall woman.")) 10
      = Ok r /\
    (Z.of_nat (length r) <= 10)%Z /\
    prefix_of r (instruction (str "in a forest, a tall woman.")) /\
    (In " " (firstn (Z.to_nat 10) (instruction (str "in a forest, a tall woman."))) ->
     exists tail,
       firstn (Z.to_nat 10) (instruction (str "in a forest, a tall woman."))
         = r ++ " " :: tail /\
       ~ In " " tail) /\
    (~ In " " (firstn (Z.to_nat 10) (instruction (str "in a forest, a tall woman."))) ->
     r = firstn (Z.to_nat 10) (instruction (str "in a forest, a tall woman.")) /\
     Z.of_nat (length r) = 10%Z).
Proof.
  apply (truncation_bounds (str "in a forest, a tall woman.") 10).
  - lia.
  - vm_compute. reflexivity.
Defined.

(** C2 as stated fails for a negative max_length: the slice then counts
    from the end, and the result is longer than max_length. *)
Lemma truncation_negative_max_length :
  ~ (forall text max_length,
        (Z.of_nat (length (instruction text)) > max_length)%Z ->
        exists r,
          extract_image_instructions (PyStr text) max_length = Ok r /\
          (Z.of_nat (length r) <= max_length)%Z).
Proof.
  intros H.
  destruct (H (str "in a forest") (-1)%Z) as (r & Hr & Hlen).
  - vm_compute. reflexivity.
  - vm_compute in Hr. injection Hr as <-.
    vm_compute in Hlen. now apply Hlen.
Qed.

(** The concrete case of the spec for max_length = 10. *)
Example truncation_ten :
  instruction (str "in a forest, a tall woman.") = str "in a forest, a tall woman" /\
  extract_image_instructions (PyStr (str "in a forest, a tall woman.")) 10
    = Ok (str "in a").
Proof. split; vm_compute; reflexivity. Qed.

(** C3, for text that is a string: whatever the string (the empty one
    too) and whatever max_length, the extractor returns a string and
    raises nothing; with [None] for text it raises a TypeError. *)
Theorem extractor_total_on_strings :
  (forall (text : pystr) max_length,
      exists r, extract_image_instructions (PyStr text) max_length = Ok r) /\
  (forall max_length,
      exists e, extract_image_instructions PyNone max_length = Raise e /\
                exn_class e = TypeError).
Proof.
  split.
  - intros text n. unfold extract_image_instructions.
    destruct (Z.of_nat (length (instruction text)) >? n)%Z.
    + destruct (cut_at_word_spec (instruction text) n) as (r & Hr & _).
      now exists r.
    + now eexists.
  - intros n. exists expected_string. now split.
Qed.

(** C3 as stated fails: [None] for text makes the extractor raise. *)
Lemma extractor_raises_on_None :
  ~ (forall text max_length,
        exists r, extract_image_instructions text max_length = Ok r).
Proof.
  intros H. destruct (H PyNone 500%Z) as [r Hr]. discriminate.
Qed.

(** C4, as the code has it: on the sample sentence the setting run goes
    on to the period, the capital "A" keeps the character pattern from
    matching, and the action is the leftmost one, "standing ...". *)
Theorem sample_sentence_result :
  search setting_pattern sample_text
    = Some (str "in a dark forest holding a lantern") /\
  findall characters_pattern sample_text = [] /\
  search action_pattern sample_text
    = Some (str "standing near a castle in a dark forest holding a lantern") /\
  extract_image_instructions (PyStr sample_text) 500 =
    Ok (str "in a dark forest holding a lantern, standing near a castle in a dark forest holding a lantern").
Proof. repeat split; vm_compute; reflexivity. Qed.

(** C4 as stated fails: the result is not the three short pieces. *)
Lemma sample_sentence_not_three_pieces :
  extract_image_instructions (PyStr sample_text) 500 <>
  Ok (join (str ", ")
        [str "in a dark forest"; str "a tall woman"; str "holding a lantern"]).
Proof. vm_compute. discriminate. Qed.

(** C7: when no substring of the text is in the language of any of the
    three patterns, the extractor returns the empty string. *)
Theorem no_phrase_gives_empty : forall text max_length,
  (forall w, substring_of w text -> ~ in_pattern setting_pattern w) ->
  (forall w, substring_of w text -> ~ in_pattern characters_pattern w) ->
  (forall w, substring_of w text -> ~ in_pattern action_pattern w) ->
  extract_image_instructions (PyStr text) max_length = Ok [].
Proof.
  intros text n Hs Hc Ha.
  assert (Hins : instruction text = []).
  { unfold instruction, search.
    apply search_pos_none_iff in Hs, Ha. rewrite Hs, Ha.
    pose proof (findall_all_matches characters_pattern text
                  characters_pattern_nonempty) as Hall.
    destruct (findall characters_pattern text) as [|m found]; trivial.
    exfalso. inversion Hall as [|pre m' post found' Hin _ _]; subst.
    apply (Hc m); trivial. now exists pre, post. }
  unfold extract_image_instructions. rewrite Hins.
  destruct (Z.of_nat (length (@nil ascii)) >? n)%Z; trivial.
  unfold cut_at_word, slice_to.
  destruct (0 <=? n)%Z; now rewrite firstn_nil.
Qed.

Lemma no_phrase_gives_empty_witness :
  extract_image_instructions (PyStr (str "Hello, world. Nothing here")) 500
    = Ok [].
Proof.
  apply (no_phrase_gives_empty (str "Hello, world. Nothing here") 500);
    apply search_pos_none_iff; vm_compute; reflexivity.
Defined.

(** C10: no matched piece holds a comma or a period, so the untruncated
    output is the [", "]-join of pieces free of both: its commas are
    those of the separators. *)
Theorem pieces_have_no_dot_comma : forall text,
  no_dot_comma (group_or_empty (search setting_pattern text)) /\
  Forall no_dot_comma (findall characters_pattern text) /\
  no_dot_comma (group_or_empty (search action_pattern text)) /\
  exists pieces,
    Forall no_dot_comma pieces /\
    Forall (fun piece => piece <> []) pieces /\
    instruction text = join (str ", ") pieces.
Proof.
  intros text.
  assert (Hs : no_dot_comma (group_or_empty (search setting_pattern text))).
  { apply first_match_clean with setting_pattern text;
      [reflexivity|apply search_first_match]. }
  assert (Ha : no_dot_comma (group_or_empty (search action_pattern text))).
  { apply first_match_clean with action_pattern text;
      [reflexivity|apply search_first_match]. }
  assert (Hc : Forall no_dot_comma (findall characters_pattern text)).
  { pose proof (findall_all_matches characters_pattern text
                  characters_pattern_nonempty) as H.
    apply all_matches_in_pattern in H.
    eapply Forall_impl; [|exact H].
    intros w Hw. now apply in_pattern_clean with characters_pattern. }
  split; [exact Hs|]. split; [exact Hc|]. split; [exact Ha|].
  exists (filter_None
            (group_or_empty (search setting_pattern text)
             :: findall characters_pattern text
             ++ [group_or_empty (search action_pattern text)])).
  split; [|split].
  - apply Forall_forall. intros w Hw. apply filter_In in Hw as [Hw _].
    destruct Hw as [<-|Hw]; trivial.
    apply in_app_or in Hw as [Hw|[<-|[]]]; trivial.
    rewrite Forall_forall in Hc. now apply Hc.
  - apply filter_None_all.
  - unfold instruction. apply join_flatten, findall_nonempty.
Qed.

(** ** The two API wrappers *)

(** C6: both wrappers return [None] after printing a diagnostic when the
    underlying call (or reading its first item) raises, and never raise
    themselves; on success the chat wrapper returns the completion text
    and the image wrapper the image URL. *)
Theorem api_wrappers_catch_failures : forall client w,
  (forall prompt model,
      let out := get_chatgpt_response client prompt model w in
      match chat_completions_create client (length (chat_requests w))
              prompt model with
      | Ok (content :: _) =>
          snd out = Ok content /\ stdout (fst out) = stdout w
      | Ok [] =>
          snd out = Ok PyNone /\
          stdout (fst out) =
            stdout w ++ [str "Error in getting response from ChatGPT: " ++
                         str "list index out of range"]
      | Raise e =>
          snd out = Ok PyNone /\
          stdout (fst out) =
            stdout w ++ [str "Error in getting response from ChatGPT: " ++
                         exn_text e]
      end) /\
  (forall text,
      let out := create_dalle_image client text w in
      match images_generate client (length (image_requests w)) text with
      | Ok (url :: _) =>
          snd out = Ok url /\ stdout (fst out) = stdout w
      | Ok [] =>
          snd out = Ok PyNone /\
          stdout (fst out) =
            stdout w ++ [str "Error in creating image with DALL-E: " ++
                         str "list index out of range"]
      | Raise e =>
          snd out = Ok PyNone /\
          stdout (fst out) =
            stdout w ++ [str "Error in creating image with DALL-E: " ++
                         exn_text e]
      end).
Proof.
  intros client w. split.
  - intros prompt model.
    unfold get_chatgpt_response, try_except, bind, send_chat, lift.
    destruct (chat_completions_create client (length (chat_requests w))
                prompt model) as [[|content rest]|e];
      simpl; split; reflexivity.
  - intros text.
    unfold create_dalle_image, try_except, bind, send_image, lift.
    destruct (images_generate client (length (image_requests w)) text)
      as [[|url rest]|e];
      simpl; split; reflexivity.
Qed.

(** ** The store *)

Section Store.

Lemma fold_left_max_ge l a :
  (a <= fold_left Z.max l a)%Z /\
  Forall (fun x => (x <= fold_left Z.max l a)%Z) l.
Proof.
  revert a. induction l as [|x l IH]; intros a; simpl.
  - split; [lia|constructor].
  - destruct (IH (Z.max a x)) as [Hge Hall]. split; [lia|].
    constructor; [lia|exact Hall].
Qed.

(** The rowid given to a new row is above every rowid in use. *)
Lemma next_id_fresh rs : Forall (fun r => (row_id r < next_id rs)%Z) rs.
Proof.
  destruct rs as [|r rs]; [constructor|]. unfold next_id.
  destruct (fold_left_max_ge (map row_id rs) (row_id r)) as [Hge Hall].
  constructor; [lia|].
  rewrite Forall_map in Hall. eapply Forall_impl; [|exact Hall].
  simpl. intros x Hx. lia.
Qed.

Lemma find_appended rs r :
  Forall (fun x => (row_id x < row_id r)%Z) rs ->
  find (fun x => Z.eqb (row_id x) (row_id r)) (rs ++ [r]) = Some r.
Proof.
  induction 1 as [|x rs Hx _ IH]; simpl.
  - now rewrite Z.eqb_refl.
  - destruct (Z.eqb_spec (row_id x) (row_id r)); [lia|exact IH].
Qed.

Lemma lookup_bind_cells schema cols params col :
  In col schema ->
  lookup col (bind_cells schema cols params) =
  Some (match lookup col (combine cols params) with
        | Some v => v
        | None => PyNone
        end).
Proof.
  unfold bind_cells. induction schema as [|c schema IH]; intros Hin;
    [contradiction|].
  cbn [map lookup].
  destruct (String.eqb_spec col c) as [->|Hne].
  - destruct (lookup c (combine cols params)); cbn [lookup];
      now rewrite String.eqb_refl.
  - destruct Hin as [->|Hin]; [contradiction|].
    destruct (lookup c (combine cols params)); cbn [lookup];
      (destruct (String.eqb_spec col c); [contradiction|now apply IH]).
Qed.

Lemma columns_known schema cols :
  (forall col, In col cols -> In col schema) ->
  forallb (fun c => existsb (String.eqb c) schema) cols = true.
Proof.
  intros H. apply forallb_forall. intros c Hc.
  apply existsb_exists. exists c. split; [now apply H|].
  apply String.eqb_refl.
Qed.

End Store.

(** C9: a record inserted by [save_to_database] and read back by its
    rowid has the five values that were passed, each in its column. *)
Theorem insert_then_read_round_trip :
  forall story_info story_type setting characters chat_response image_url
         w c t,
    lookup "story_type" story_info = Some story_type ->
    lookup "setting" story_info = Some setting ->
    lookup "characters" story_info = Some characters ->
    conn w = Some c -> closed c = false -> working c = Some t ->
    (forall col, In col story_columns -> In col (columns t)) ->
    exists w' c' i r,
      save_to_database story_info chat_response image_url w = (w', Ok tt) /\
      conn w' = Some c' /\ lastrowid c' = Some i /\
      select_by_id (working c') i = Some r /\
      cell r "story_type" = Some story_type /\
      cell r "setting" = Some setting /\
      cell r "characters" = Some characters /\
      cell r "chat_response" = Some chat_response /\
      cell r "image_url" = Some image_url.
Proof.
  intros story_info story_type setting characters chat_response image_url
         w c t Hst Hse Hch Hconn Hopen Hwork Hcols.
  unfold save_to_database, bind, lift, getitem.
  rewrite Hst, Hse, Hch. unfold execute. rewrite Hconn, Hopen.
  unfold run. rewrite Hwork.
  change (negb (Nat.eqb (length story_columns)
                  (length [story_type; setting; characters;
                           chat_response; image_url]))) with false.
  cbn iota. rewrite (columns_known _ _ Hcols). cbn [negb].
  set (params := [story_type; setting; characters; chat_response; image_url]).
  set (r := mk_row (next_id (rows t))
              (bind_cells (columns t) story_columns params)).
  eexists _, _, (next_id (rows t)), r.
  split; [reflexivity|]. split; [reflexivity|]. split; [reflexivity|].
  split.
  { cbn [working select_by_id rows].
    apply (find_appended (rows t) r). apply next_id_fresh. }
  unfold cell. subst r. cbn [row_cells].
  repeat split;
    (rewrite lookup_bind_cells; [reflexivity|apply Hcols; simpl; tauto]).
Qed.

Lemma insert_then_read_round_trip_witness :
  exists w' c' i r,
    save_to_database
      [("story_type"%string, PyStr (str "fairy tale"));
       ("setting"%string, PyStr (str "a forest"));
       ("characters"%string, PyStr (str "a fox"))]
      (PyStr story) (PyStr (str "https://images.example/1.png"))
      (mk_world [] [] [] [] [] []
         (Some (mk_connection (Some (mk_table stories_schema []))
                  (Some (mk_table stories_schema [])) false None [] false)))
      = (w', Ok tt) /\
    conn w' = Some c' /\ lastrowid c' = Some i /\
    select_by_id (working c') i = Some r /\
    cell r "story_type" = Some (PyStr (str "fairy tale")) /\
    cell r "setting" = Some (PyStr (str "a forest")) /\
    cell r "characters" = Some (PyStr (str "a fox")) /\
    cell r "chat_response" = Some (PyStr story) /\
    cell r "image_url" = Some (PyStr (str "https://images.example/1.png")).
Proof.
  apply (insert_then_read_round_trip
           [("story_type"%string, PyStr (str "fairy tale"));
            ("setting"%string, PyStr (str "a forest"));
            ("characters"%string, PyStr (str "a fox"))]
           (PyStr (str "fairy tale")) (PyStr (str "a forest"))
           (PyStr (str "a fox")) (PyStr story)
           (PyStr (str "https://images.example/1.png"))
           (mk_world [] [] [] [] [] []
              (Some (mk_connection (Some (mk_table stories_schema []))
                       (Some (mk_table stories_schema [])) false None []
                       false)))
           (mk_connection (Some (mk_table stories_schema []))
              (Some (mk_table stories_schema [])) false None [] false)
           (mk_table stories_schema []));
    try reflexivity.
  simpl. intros col H. exact H.
Defined.

(** ** The main flow *)

Section MainFlow.

Lemma quiet_ret {A} (a : A) : quiet (ret a).
Proof. intros w. reflexivity. Qed.

Lemma quiet_lift {A} (r : result A) : quiet (lift r).
Proof. intros w. reflexivity. Qed.

Lemma quiet_bind {A B} (c : M A) (k : A -> M B) :
  quiet c -> (forall a, quiet (k a)) -> quiet (bind c k).
Proof.
  intros Hc Hk w. unfold bind. specialize (Hc w).
  destruct (c w) as [w' [a|e]]; simpl in *; [|exact Hc].
  now rewrite Hk.
Qed.

Lemma quiet_try_except {A} (body : M A) handler :
  quiet body -> (forall e, quiet (handler e)) -> quiet (try_except body handler).
Proof.
  intros Hb Hh w. unfold try_except. specialize (Hb w).
  destruct (body w) as [w' [a|e]]; simpl in *; [exact Hb|].
  now rewrite Hh.
Qed.

Lemma quiet_print line : quiet (print line).
Proof. intros w. reflexivity. Qed.

Lemma quiet_input prompt : quiet (input prompt).
Proof.
  apply quiet_bind; [apply quiet_print|].
  intros _ w. destruct (stdin w); reflexivity.
Qed.

Lemma quiet_send_chat client prompt model :
  quiet (send_chat client prompt model).
Proof. intros w. reflexivity. Qed.

Lemma quiet_send_image client text : quiet (send_image client text).
Proof. intros w. reflexivity. Qed.

Lemma quiet_get_chatgpt_response client prompt model :
  quiet (get_chatgpt_response client prompt model).
Proof.
  apply quiet_try_except.
  - apply quiet_bind; [apply quiet_send_chat|intros; apply quiet_lift].
  - intros e. apply quiet_bind; [apply quiet_print|intros; apply quiet_ret].
Qed.

Lemma quiet_create_dalle_image client text :
  quiet (create_dalle_image client text).
Proof.
  apply quiet_try_except.
  - apply quiet_bind; [apply quiet_send_image|intros; apply quiet_lift].
  - intros e. apply quiet_bind; [apply quiet_print|intros; apply quiet_ret].
Qed.

Lemma quiet_download_image client url path :
  quiet (download_image client url path).
Proof. intros w. unfold download_image. destruct (requests_get client url); reflexivity. Qed.

Lemma quiet_cursor_lastrowid : quiet cursor_lastrowid.
Proof. intros w. reflexivity. Qed.

Lemma quiet_read_json_file client path : quiet (read_json_file client path).
Proof. apply quiet_lift. Qed.

Lemma triple_quiet {A} P (c : M A) : quiet c -> triple P c P.
Proof. intros Hc w Hw. now rewrite Hc. Qed.

Lemma triple_bind {A B} P R Q (c : M A) (k : A -> M B) :
  triple P c R -> (forall oc, R oc -> Q oc) ->
  (forall a, triple R (k a) Q) -> triple P (bind c k) Q.
Proof.
  intros Hc Himp Hk w Hw. unfold bind. specialize (Hc w Hw).
  destruct (c w) as [w' [a|e]]; simpl in *; [now apply Hk|now apply Himp].
Qed.

Lemma triple_weaken {A} P Q Q' (c : M A) :
  triple P c Q -> (forall oc, Q oc -> Q' oc) -> triple P c Q'.
Proof. intros H Himp w Hw. apply Himp. now apply H. Qed.

Variable client : services.

Lemma untouched_tidy oc : untouched client oc -> tidy client oc.
Proof. now left. Qed.

Lemma triple_connect P : triple P (connect client) (untouched client).
Proof. intros w _. simpl. repeat split; reflexivity. Qed.

Lemma triple_create cols :
  triple (untouched client) (execute (CreateTableIfNotExists cols))
    (untouched client).
Proof.
  intros w Hw. unfold execute.
  destruct (conn w) as [c|] eqn:Ec; [|cbn [fst]; now rewrite Ec].
  destruct (closed c); [cbn [fst]; now rewrite Ec|].
  simpl in Hw. destruct Hw as (Htx & Hcw & Hrows & Hlog).
  cbn [run]. rewrite Htx.
  destruct (working c) as [t|] eqn:Et; cbn [fst conn untouched is_insert orb].
  - cbn [committed working in_transaction executed].
    repeat split; trivial.
    + now rewrite <- Hcw.
    + now rewrite filter_app, Hlog.
  - cbn [committed working in_transaction executed].
    repeat split; trivial.
    + rewrite <- Hrows, Hcw. reflexivity.
    + now rewrite filter_app, Hlog.
Qed.

Lemma triple_close P :
  (forall c, P (Some c) ->
             P (Some (mk_connection (committed c) (committed c) false
                        (lastrowid c) (executed c) true))) ->
  triple P close P.
Proof.
  intros HP w Hw. unfold close.
  destruct (conn w) as [c|] eqn:Ec; cbn [fst conn]; [|now rewrite Ec].
  apply HP. exact Hw.
Qed.

Lemma close_keeps_tidy : triple (tidy client) close (tidy client).
Proof.
  apply triple_close. intros c [Hu|(c' & r & st & [= <-] & Htx & Hcw & Hrows & Hlog)].
  - left. simpl in *. tauto.
  - right. eexists _, r, st. split; [reflexivity|]. simpl. tauto.
Qed.

(** Lines 196-197: the save and its commit, from an untouched
    connection: either the row is in the file, or the save failed and
    nothing has changed. *)
Lemma triple_save_commit story_info chat_response image_url :
  triple (untouched client)
    (save_to_database story_info chat_response image_url ;;; commit)
    (tidy client).
Proof.
  intros w Hw. unfold save_to_database, bind, lift.
  destruct (getitem story_info "story_type") as [a|e]; [|now left].
  destruct (getitem story_info "setting") as [b|e]; [|now left].
  destruct (getitem story_info "characters") as [c|e]; [|now left].
  unfold execute.
  destruct (conn w) as [cn|] eqn:Ec; [|left; cbn [fst]; now rewrite Ec].
  destruct (closed cn) eqn:Ecl; [left; cbn [fst]; now rewrite Ec|].
  destruct (run _ (working cn)) as [[db rowid]|e] eqn:Er;
    [|left; cbn [fst]; now rewrite Ec].
  simpl in Hw. destruct Hw as (Htx & Hcw & Hrows & Hlog).
  unfold commit. cbn [conn closed fst snd].
  right. unfold run in Er.
  destruct (working cn) as [t|] eqn:Et; [|discriminate].
  destruct (negb _); [discriminate|].
  destruct (negb _); [discriminate|].
  injection Er as <- <-.
  eexists _, _, _. split; [reflexivity|].
  cbn [in_transaction committed working executed stored_rows rows].
  split; [reflexivity|]. split; [reflexivity|]. split.
  - rewrite <- Hrows, Hcw. reflexivity.
  - rewrite filter_app, Hlog. reflexivity.
Qed.

(** Lines 195-206: the save block and the close. *)
Lemma triple_save_block (go : bool) story_info text_response image_url image_dir :
  triple (untouched client)
    ((if go then
        save_to_database story_info text_response image_url ;;;
        commit ;;;
        print (nl ++ str "ChatGPT Response: " ++ format text_response) ;;;
        print (nl ++ str "Generated Image URL: " ++ format image_url) ;;;
        rowid <- cursor_lastrowid ;;
        download_image client image_url
          (image_dir ++ str "/" ++ decimal rowid ++ str ".png")
      else ret tt) ;;; close)
    (tidy client).
Proof.
  apply triple_bind with (R := tidy client); trivial;
    [|intros _; apply close_keeps_tidy].
  destruct go.
  - intros w Hw.
    pose proof (triple_save_commit story_info text_response image_url w Hw)
      as Hsc.
    unfold bind in *.
    destruct (save_to_database story_info text_response image_url w)
      as [w1 [[]|e]]; [|exact Hsc].
    destruct (commit w1) as [w2 [[]|e]]; [|exact Hsc].
    cbn [fst] in Hsc.
    assert (Hq : quiet
              (print (nl ++ str "ChatGPT Response: " ++ format text_response) ;;;
               print (nl ++ str "Generated Image URL: " ++ format image_url) ;;;
               rowid <- cursor_lastrowid ;;
               download_image client image_url
                 (image_dir ++ str "/" ++ decimal rowid ++ str ".png"))).
    { apply quiet_bind; [apply quiet_print|intros _].
      apply quiet_bind; [apply quiet_print|intros _].
      apply quiet_bind; [apply quiet_cursor_lastrowid|intros rowid].
      apply quiet_download_image. }
    specialize (Hq w2). unfold bind in Hq. now rewrite Hq.
  - apply triple_weaken with (Q := untouched client);
      [apply triple_quiet, quiet_ret|apply untouched_tidy].
Qed.

End MainFlow.

Create HintDb quiet.

#[local] Hint Resolve quiet_ret quiet_lift quiet_bind quiet_print quiet_input
  quiet_get_chatgpt_response quiet_create_dalle_image quiet_download_image
  quiet_cursor_lastrowid quiet_read_json_file : quiet.

#[local] Hint Extern 1 (quiet (if ?b then _ else _)) => destruct b : quiet.

(** One step of [main] that leaves the connection alone. *)
Ltac quiet_step client :=
  apply triple_bind with (R := untouched client);
  [ apply triple_quiet; auto with quiet
  | exact (untouched_tidy client)
  | intro ].

(** Whatever the services answer and the user types, a run leaves the
    connection untouched or with one row saved and committed. *)
Lemma main_tidy client : triple (untouched client) (main client) (tidy client).
Proof.
  unfold main. cbv zeta.
  quiet_step client. quiet_step client.
  apply triple_bind with (R := untouched client);
    [apply triple_connect|exact (untouched_tidy client)|intros _].
  apply triple_bind with (R := untouched client);
    [apply triple_create|exact (untouched_tidy client)|intros _].
  do 3 quiet_step client.
  do 7 quiet_step client.
  apply triple_save_block.
Qed.



(** A run in which every endpoint answers performs one INSERT and the
    file gains one row. *)
Example run_with_one_insert :
  snd (main working_client (initial_world typed_answers)) = Ok tt /\
  length (inserts (fst (main working_client (initial_world typed_answers)))) = 1 /\
  length (file_rows working_client
            (fst (main working_client (initial_world typed_answers)))) = 1 /\
  map fst (files (fst (main working_client (initial_world typed_answers)))) =
    [str "C:/Users/Denzi/Desktop/Git_Projects/StoryBook/Python/Images/1.png"].
Proof. repeat split; vm_compute; reflexivity. Qed.

(** C5, at a client that cannot reach the chat endpoint: both chat calls
    return [None]; no image is requested, no row is saved and nothing is
    downloaded, but the run does not complete: building the line
    "image text: ..." raises a TypeError and the connection is left
    open. *)
Theorem failed_chat_aborts_run :
  let out := main offline_client (initial_world typed_answers) in
  (exists e, snd out = Raise e /\ exn_class e = TypeError) /\
  stdout (fst out) =
    [str "What kind of story do you want? ";
     str "What is the setting of the story? ";
     str "Who are the characters in the story? ";
     str "Error in getting response from ChatGPT: Connection error.";
     str "Error in getting response from ChatGPT: Connection error."] /\
  image_requests (fst out) = [] /\
  inserts (fst out) = [] /\
  downloads (fst out) = [] /\
  exists c, conn (fst out) = Some c /\ closed c = false.
Proof.
  cbv zeta. split; [eexists; split; vm_compute; reflexivity|].
  split; [vm_compute; reflexivity|].
  split; [vm_compute; reflexivity|].
  split; [vm_compute; reflexivity|].
  split; [vm_compute; reflexivity|].
  eexists; split; vm_compute; reflexivity.
Qed.

(** When only the first chat call fails, the second call is still made
    with the text "None" in its prompt, and an image is requested from
    what it answers; the save block alone is skipped. *)
Example failed_first_chat_still_requests_image :
  let out := main late_client (initial_world typed_answers) in
  snd out = Ok tt /\
  length (chat_requests (fst out)) = 2 /\
  image_requests (fst out) =
    [PyStr (str "on a time in a dark forest, a small woman, holding a lantern")] /\
  inserts (fst out) = [] /\
  downloads (fst out) = [].
Proof. cbv zeta. repeat split; vm_compute; reflexivity. Qed.

(** * Further properties of the extractor *)

Section ExtractorMore.

Lemma first_match_substring p text piece :
  first_match p text piece -> substring_of piece text.
Proof.
  intros [[-> _]|(pre & post & -> & _)].
  - now exists [], text.
  - now exists pre, post.
Qed.

Lemma first_match_phrase p text piece :
  first_match p text piece -> piece = [] \/ in_pattern p piece.
Proof. intros [[-> _]|(pre & post & _ & Hin & _)]; auto. Qed.

Lemma all_matches_substrings p s found :
  all_matches p s found ->
  Forall (fun m => substring_of m s) found /\
  length (List.concat found) <= length s.
Proof.
  induction 1 as [s _|pre m post found Hin _ _ [Hsub Hlen]].
  - split; [constructor|simpl; lia].
  - split.
    + constructor; [now exists pre, post|].
      eapply Forall_impl; [|exact Hsub].
      intros m' (pre' & post' & ->).
      exists (pre ++ m ++ pre'), post'. now rewrite <- !app_assoc.
    + simpl. rewrite !length_app. lia.
Qed.

Lemma span_stop excluded s :
  skipn (span excluded s) s = [] \/
  exists c rest, skipn (span excluded s) s = c :: rest /\
                 excludes excluded c = false.
Proof.
  induction s as [|a s IH]; simpl; [now left|].
  destruct (excludes excluded a) eqn:E; simpl; [exact IH|].
  right. now exists a, s.
Qed.

Lemma delimiter_only excluded c :
  forallb (fun x => Ascii.eqb x "." || Ascii.eqb x ",") excluded = true ->
  excludes excluded c = false -> c = "." \/ c = ",".
Proof.
  intros Hall Hc. unfold excludes in Hc. apply negb_false_iff in Hc.
  apply existsb_exists in Hc as (x & Hx & Hcx).
  apply Ascii.eqb_eq in Hcx. subst x.
  rewrite forallb_forall in Hall. apply Hall in Hx.
  apply orb_prop in Hx as [Hx|Hx]; apply Ascii.eqb_eq in Hx; auto.
Qed.

(** A branch that ends in a run takes the whole run: the match stops at
    the end of the subject or in front of a period or a comma. *)
Lemma match_branch_run_stops b s n :
  run_to_delimiter b = true -> match_branch b s = Some n ->
  skipn n s = [] \/
  exists c rest, skipn n s = c :: rest /\ (c = "." \/ c = ",").
Proof.
  destruct b as [|[word|?] [|[?|excluded] [|? ?]]]; try discriminate.
  intros Hb. cbn [run_to_delimiter] in Hb. cbn [match_branch].
  destruct (starts_with word s); [|discriminate].
  destruct (span excluded (skipn (length word) s)) as [|k] eqn:Es;
    cbn [backtrack]; [discriminate|].
  intros [= <-].
  replace (length word + S (k + 0)) with (S k + length word) by lia.
  rewrite <- skipn_skipn, <- Es.
  destruct (span_stop excluded (skipn (length word) s))
    as [Hend|(c & rest & Hc & Hex)]; [now left|].
  right. exists c, rest. split; trivial.
  now apply delimiter_only with excluded.
Qed.

Lemma match_here_run_stops p s n :
  forallb run_to_delimiter p = true -> match_here p s = Some n ->
  skipn n s = [] \/
  exists c rest, skipn n s = c :: rest /\ (c = "." \/ c = ",").
Proof.
  induction p as [|b p IH]; simpl; [discriminate|].
  intros Hp. apply andb_prop in Hp as [Hb Hp].
  destruct (match_branch b s) as [m|] eqn:E.
  - intros [= <-]. now apply match_branch_run_stops with b.
  - now apply IH.
Qed.

Lemma search_pos_here p s i n :
  search_pos p s = Some (i, n) ->
  i <= length s /\ match_here p (skipn i s) = Some n.
Proof.
  revert i n. induction s as [|c s IH]; intros i n; simpl.
  - destruct (match_here p []) eqn:E; [|discriminate].
    intros [= <- <-]. split; trivial.
  - destruct (match_here p (c :: s)) eqn:E.
    + intros [= <- <-]. split; [lia|trivial].
    + destruct (search_pos p s) as [[i' n']|] eqn:E2; [|discriminate].
      intros [= <- <-]. destruct (IH _ _ eq_refl). split; [lia|trivial].
Qed.

Lemma in_branch_head b w :
  starts_with_letter b = true -> in_branch b w ->
  exists c rest, w = c :: rest /\ c <> " ".
Proof.
  destruct b as [|[[|c word]|?] rest]; try discriminate.
  cbn [starts_with_letter in_branch]. intros Hc (w' & -> & _).
  exists c, (word ++ w'). split; trivial.
  apply negb_true_iff in Hc. now apply Ascii.eqb_neq in Hc.
Qed.

Lemma in_pattern_head p w :
  forallb starts_with_letter p = true -> in_pattern p w ->
  exists c rest, w = c :: rest /\ c <> " ".
Proof.
  intros Hp Hin. apply Exists_exists in Hin as (b & Hb & Hw).
  rewrite forallb_forall in Hp. eapply in_branch_head; eauto.
Qed.

Lemma a_phrase_head w :
  a_phrase w -> exists c rest, w = c :: rest /\ c <> " ".
Proof.
  intros [H|[H|H]]; eapply in_pattern_head; try exact H; reflexivity.
Qed.

Lemma a_phrase_clean w : a_phrase w -> no_dot_comma w.
Proof.
  intros [H|[H|H]]; eapply in_pattern_clean; try exact H; reflexivity.
Qed.

(** The joined instruction is the join of the phrases found, in order. *)
Lemma instruction_pieces text :
  exists pieces,
    instruction text = join (str ", ") pieces /\ Forall a_phrase pieces.
Proof.
  exists (filter_None
            (group_or_empty (search setting_pattern text)
             :: findall characters_pattern text
             ++ [group_or_empty (search action_pattern text)])).
  split; [unfold instruction; apply join_flatten, findall_nonempty|].
  apply Forall_forall. intros w Hw. apply filter_In in Hw as [Hw Hne].
  apply truthy_true_iff in Hne.
  destruct Hw as [<-|Hw].
  - destruct (first_match_phrase _ _ _ (search_first_match setting_pattern text));
      [contradiction|now left].
  - apply in_app_or in Hw as [Hw|[<-|[]]].
    + right. left.
      pose proof (findall_all_matches characters_pattern text
                    characters_pattern_nonempty) as H.
      apply all_matches_in_pattern in H. rewrite Forall_forall in H. auto.
    + destruct (first_match_phrase _ _ _ (search_first_match action_pattern text));
        [contradiction|now (right; right)].
Qed.

Lemma join_no_dot pieces :
  Forall (fun w => ~ In "." w) pieces -> ~ In "." (join (str ", ") pieces).
Proof.
  induction 1 as [|w pieces Hw Hall IH]; [intros []|].
  destruct pieces as [|w' pieces]; [exact Hw|].
  rewrite join_cons_cons. intros Hin.
  apply in_app_or in Hin as [Hin|Hin]; [contradiction|].
  apply in_app_or in Hin as [Hin|Hin]; [|contradiction].
  vm_compute in Hin. intuition discriminate.
Qed.

Lemma instruction_no_dot text : ~ In "." (instruction text).
Proof.
  destruct (instruction_pieces text) as (pieces & -> & Hall).
  apply join_no_dot. eapply Forall_impl; [|exact Hall].
  intros w Hw. now apply a_phrase_clean in Hw as [Hd _].
Qed.

Lemma instruction_head text :
  instruction text <> [] ->
  exists c rest, instruction text = c :: rest /\ c <> " ".
Proof.
  destruct (instruction_pieces text) as (pieces & -> & Hall). intros Hne.
  destruct pieces as [|w pieces]; [contradiction|].
  inversion Hall as [|? ? Hw _]; subst.
  destruct (a_phrase_head w Hw) as (c & rest & -> & Hc).
  destruct pieces; [now exists c, rest|].
  rewrite join_cons_cons. now eexists c, _.
Qed.

Lemma cut_at_word_prefix s n r : cut_at_word s n = Ok r -> prefix_of r s.
Proof.
  intros Hr. destruct (cut_at_word_spec s n) as (r' & Hr' & Hshape).
  rewrite Hr in Hr'. injection Hr' as <-.
  apply prefix_of_trans with (slice_to s n); [|apply slice_to_prefix].
  destruct Hshape as [(tail & -> & _)|[-> _]].
  - now exists (" " :: tail).
  - exists []. now rewrite app_nil_r.
Qed.

Lemma cut_at_word_bounded s n r :
  (0 <= n)%Z -> cut_at_word s n = Ok r -> (Z.of_nat (length r) <= n)%Z.
Proof.
  intros Hn Hr. destruct (cut_at_word_spec s n) as (r' & Hr' & Hshape).
  rewrite Hr in Hr'. injection Hr' as <-.
  rewrite slice_to_nonneg in Hshape by trivial.
  assert (Hcut : length (firstn (Z.to_nat n) s) <= Z.to_nat n)
    by (rewrite length_firstn; lia).
  destruct Hshape as [(tail & Hsplit & _)|[-> _]]; [|lia].
  rewrite Hsplit, length_app in Hcut. lia.
Qed.

(** Lines 84-86 for a text that is a string. *)
Lemma extract_cases text n r :
  extract_image_instructions (PyStr text) n = Ok r ->
  ((Z.of_nat (length (instruction text)) > n)%Z /\
   cut_at_word (instruction text) n = Ok r) \/
  ((Z.of_nat (length (instruction text)) <= n)%Z /\ r = instruction text).
Proof.
  unfold extract_image_instructions.
  destruct (Z.gtb_spec (Z.of_nat (length (instruction text))) n) as [Hgt|Hle].
  - intros Hr. left. split; [lia|exact Hr].
  - intros [= <-]. right. now split.
Qed.

Lemma extract_bounded text n r :
  (0 <= n)%Z -> extract_image_instructions (PyStr text) n = Ok r ->
  (Z.of_nat (length r) <= n)%Z.
Proof.
  intros Hn Hr. apply extract_cases in Hr as [[_ Hcut]|[Hle ->]]; trivial.
  now apply cut_at_word_bounded with (instruction text).
Qed.

Lemma extract_prefix text n r :
  extract_image_instructions (PyStr text) n = Ok r ->
  prefix_of r (instruction text).
Proof.
  intros Hr. apply extract_cases in Hr as [[_ Hcut]|[_ ->]].
  - now apply cut_at_word_prefix with n.
  - exists []. now rewrite app_nil_r.
Qed.

Lemma extract_returns text n :
  exists r, extract_image_instructions (PyStr text) n = Ok r.
Proof.
  unfold extract_image_instructions.
  destruct (Z.of_nat (length (instruction text)) >? n)%Z; [|now eexists].
  destruct (cut_at_word_spec (instruction text) n) as (r & Hr & _).
  now exists r.
Qed.

End ExtractorMore.

(** X1: every piece the extractor uses is a substring of the input text,
    and the character pieces do not overlap: together they are no longer
    than the text. *)
Theorem pieces_are_substrings : forall text,
  substring_of (group_or_empty (search setting_pattern text)) text /\
  Forall (fun m => substring_of m text) (findall characters_pattern text) /\
  length (List.concat (findall characters_pattern text)) <= length text /\
  substring_of (group_or_empty (search action_pattern text)) text.
Proof.
  intros text.
  destruct (all_matches_substrings characters_pattern text _
              (findall_all_matches characters_pattern text
                 characters_pattern_nonempty)) as [Hsub Hlen].
  split; [apply first_match_substring with setting_pattern,
            search_first_match|].
  split; [exact Hsub|]. split; [exact Hlen|].
  apply first_match_substring with action_pattern, search_first_match.
Qed.

(** X2: a setting piece and an action piece always run on to the next
    period or comma of the text, or to its end. *)
Theorem setting_and_action_run_to_delimiter : forall p text g,
  In p [setting_pattern; action_pattern] ->
  search p text = Some g ->
  exists pre post,
    text = pre ++ g ++ post /\
    (post = [] \/ exists c rest, post = c :: rest /\ (c = "." \/ c = ",")).
Proof.
  intros p text g Hp. unfold search.
  destruct (search_pos p text) as [[i n]|] eqn:E; [|discriminate].
  intros [= <-]. apply search_pos_here in E as [_ Hhere].
  exists (firstn i text), (skipn n (skipn i text)).
  split; [now rewrite !firstn_skipn|].
  apply match_here_run_stops with p; trivial.
  destruct Hp as [<-|[<-|[]]]; reflexivity.
Qed.

Lemma setting_and_action_run_to_delimiter_witness :
  exists pre post,
    sample_text = pre ++ str "in a dark forest holding a lantern" ++ post /\
    (post = [] \/ exists c rest, post = c :: rest /\ (c = "." \/ c = ",")).
Proof.
  apply (setting_and_action_run_to_delimiter setting_pattern sample_text
           (str "in a dark forest holding a lantern")).
  - simpl. left. reflexivity.
  - vm_compute. reflexivity.
Defined.

(** X3: for a max_length that is not negative, the extractor's result is
    never longer than max_length, whether or not it had to cut. *)
Theorem result_within_max_length : forall text max_length,
  (0 <= max_length)%Z ->
  exists r,
    extract_image_instructions (PyStr text) max_length = Ok r /\
    (Z.of_nat (length r) <= max_length)%Z.
Proof.
  intros text n Hn. destruct (extract_returns text n) as [r Hr].
  exists r. split; trivial. now apply extract_bounded with text.
Qed.

Lemma result_within_max_length_witness :
  exists r,
    extract_image_instructions (PyStr sample_text) 20 = Ok r /\
    (Z.of_nat (length r) <= 20)%Z.
Proof. apply (result_within_max_length sample_text 20). lia. Defined.

(** X4: for every integer max_length, negative ones too, the result is
    a prefix of the joined instruction and holds no period. *)
Theorem result_is_prefix_without_period : forall text max_length,
  exists r,
    extract_image_instructions (PyStr text) max_length = Ok r /\
    prefix_of r (instruction text) /\ ~ In "." r.
Proof.
  intros text n. destruct (extract_returns text n) as [r Hr].
  exists r. split; trivial.
  pose proof (extract_prefix text n r Hr) as Hpre. split; trivial.
  destruct Hpre as [rest Hrest]. intros Hin.
  apply (instruction_no_dot text). rewrite Hrest.
  apply in_or_app. now left.
Qed.

(** X5: when some phrase was found and max_length is at least 1, the
    result is not empty, even after the cut: the cut falls at a space,
    and the instruction does not start with one. *)
Theorem result_not_empty : forall text max_length,
  (1 <= max_length)%Z -> instruction text <> [] ->
  exists r,
    extract_image_instructions (PyStr text) max_length = Ok r /\ r <> [].
Proof.
  intros text n Hn Hne. destruct (extract_returns text n) as [r Hr].
  exists r. split; trivial.
  apply extract_cases in Hr as [[Hgt Hcut]|[_ ->]]; trivial.
  destruct (instruction_head text Hne) as (c & rest & Hins & Hc).
  destruct (cut_at_word_spec (instruction text) n) as (r' & Hr' & Hshape).
  rewrite Hcut in Hr'. injection Hr' as <-.
  rewrite slice_to_nonneg in Hshape by lia.
  rewrite Hins in Hshape.
  destruct (Z.to_nat n) as [|k] eqn:Ek; [lia|].
  cbn [firstn] in Hshape.
  destruct Hshape as [(tail & Hsplit & _)|[-> _]]; [|discriminate].
  intros ->. simpl in Hsplit. injection Hsplit as Hsp _. contradiction.
Qed.

Lemma result_not_empty_witness :
  exists r,
    extract_image_instructions (PyStr sample_text) 3 = Ok r /\ r <> [].
Proof.
  apply (result_not_empty sample_text 3).
  - lia.
  - vm_compute. discriminate.
Defined.

(** * Further properties of the store *)

Section StoreMore.

Lemma find_in_front {A} (f : A -> bool) l l' r :
  find f l = Some r -> find f (l ++ l') = Some r.
Proof.
  induction l as [|x l IH]; simpl; [discriminate|].
  destruct (f x); trivial.
Qed.

Lemma find_id_in rs i r :
  find (fun x => Z.eqb (row_id x) i) rs = Some r -> In r rs /\ row_id r = i.
Proof.
  intros H. apply find_some in H as [Hin Hid].
  apply Z.eqb_eq in Hid. now split.
Qed.

Lemma find_fresh rs :
  find (fun x => Z.eqb (row_id x) (next_id rs)) rs = None.
Proof.
  pose proof (next_id_fresh rs) as Hall.
  generalize dependent (next_id rs). intros i Hall.
  induction Hall as [|x l Hx _ IH]; simpl; trivial.
  destruct (Z.eqb_spec (row_id x) i); [lia|exact IH].
Qed.

(** What [save_to_database] does to the world: nothing when it raises;
    otherwise one more row in the working copy, under a fresh rowid. *)
Lemma save_outcome story_info chat_response image_url w :
  (exists e,
      save_to_database story_info chat_response image_url w = (w, Raise e)) \/
  (exists c t cells st,
      conn w = Some c /\ closed c = false /\ working c = Some t /\
      is_insert st = true /\
      save_to_database story_info chat_response image_url w =
        (mk_world (stdin w) (stdout w) (chat_requests w) (image_requests w)
           (downloads w) (files w)
           (Some (mk_connection (committed c)
                    (Some (mk_table (columns t)
                             (rows t ++ [mk_row (next_id (rows t)) cells])))
                    true (Some (next_id (rows t)))
                    (executed c ++ [st]) false)),
         Ok tt)).
Proof.
  unfold save_to_database, bind, lift.
  destruct (getitem story_info "story_type") as [a|e]; [|left; now exists e].
  destruct (getitem story_info "setting") as [b|e]; [|left; now exists e].
  destruct (getitem story_info "characters") as [d|e]; [|left; now exists e].
  unfold execute.
  destruct (conn w) as [c|] eqn:Ec; [|left; now eexists].
  destruct (closed c) eqn:Ecl; [left; now eexists|].
  unfold run.
  destruct (working c) as [t|] eqn:Et; [|left; now eexists].
  destruct (negb _); [left; now eexists|].
  destruct (negb _); [left; now eexists|].
  right.
  exists c, t,
    (bind_cells (columns t) story_columns
       [a; b; d; chat_response; image_url]),
    (InsertInto story_columns [a; b; d; chat_response; image_url]).
  repeat (split; [assumption || reflexivity|]). reflexivity.
Qed.

End StoreMore.

(** X6: when story_info lacks one of its three keys, [save_to_database]
    raises a KeyError before any statement is executed: the world is as
    it was. *)
Theorem save_with_missing_key :
  forall story_info chat_response image_url w,
    lookup "story_type" story_info = None \/
    lookup "setting" story_info = None \/
    lookup "characters" story_info = None ->
    exists e,
      save_to_database story_info chat_response image_url w = (w, Raise e) /\
      exn_class e = KeyError.
Proof.
  intros story_info chat_response image_url w H.
  unfold save_to_database, bind, lift, getitem.
  destruct (lookup "story_type" story_info) as [a|];
    [|eexists; split; reflexivity].
  destruct (lookup "setting" story_info) as [b|];
    [|eexists; split; reflexivity].
  destruct (lookup "characters" story_info) as [d|];
    [|eexists; split; reflexivity].
  destruct H as [H|[H|H]]; discriminate.
Qed.

Lemma save_with_missing_key_witness :
  exists e,
    save_to_database [("story_type"%string, PyStr (str "fairy tale"))]
      (PyStr story) PyNone connected_world = (connected_world, Raise e) /\
    exn_class e = KeyError.
Proof.
  apply (save_with_missing_key
           [("story_type"%string, PyStr (str "fairy tale"))]
           (PyStr story) PyNone connected_world).
  right. left. reflexivity.
Defined.

(** X8: after a save that succeeds, every record that could be read
    before is read back unchanged under its rowid, and the rowid given
    to the new record is one that was not in use. *)
Theorem save_keeps_earlier_records :
  forall story_info chat_response image_url w w' c c' i r,
    save_to_database story_info chat_response image_url w = (w', Ok tt) ->
    conn w = Some c -> conn w' = Some c' ->
    select_by_id (working c) i = Some r ->
    select_by_id (working c') i = Some r /\
    exists j,
      lastrowid c' = Some j /\ j <> i /\ select_by_id (working c) j = None.
Proof.
  intros story_info chat_response image_url w w' c c' i r Hsave Hc Hc' Hsel.
  destruct (save_outcome story_info chat_response image_url w)
    as [[e He]|(c0 & t & cells & st & Ec & _ & Et & _ & Heq)];
    [rewrite He in Hsave; discriminate|].
  rewrite Heq in Hsave. injection Hsave as <-.
  rewrite Hc in Ec. injection Ec as <-.
  cbn [conn] in Hc'. injection Hc' as <-.
  cbn [working lastrowid]. rewrite Et in *. cbn [select_by_id rows] in *.
  split; [now apply find_in_front|].
  exists (next_id (rows t)). split; trivial. split; [|apply find_fresh].
  apply find_id_in in Hsel as [Hin Hid].
  pose proof (next_id_fresh (rows t)) as Hall.
  rewrite Forall_forall in Hall. apply Hall in Hin. lia.
Qed.

Lemma save_keeps_earlier_records_witness :
  exists w' c',
    save_to_database fox_story_info (PyStr story)
      (PyStr (str "https://images.example/8.png")) connected_world
      = (w', Ok tt) /\
    conn w' = Some c' /\
    select_by_id (working c') 7 = Some earlier_row /\
    exists j,
      lastrowid c' = Some j /\ j <> 7%Z /\
      select_by_id (working one_story) j = None.
Proof.
  eexists _, _. split; [vm_compute; reflexivity|]. split; [reflexivity|].
  eapply (save_keeps_earlier_records fox_story_info (PyStr story)
            (PyStr (str "https://images.example/8.png")) connected_world);
    [vm_compute; reflexivity|reflexivity|reflexivity|vm_compute; reflexivity].
Defined.

(** * Further properties of the main flow *)

Section RunFacts.

Lemma hoare_bind {A B} P (c : M A) R Qerr (k : A -> M B) Qok :
  hoare P c R Qerr -> (forall a, hoare (R a) (k a) Qok Qerr) ->
  hoare P (bind c k) Qok Qerr.
Proof.
  intros Hc Hk w Hw. unfold bind. specialize (Hc w Hw).
  destruct (c w) as [w' [a|e]]; [now apply Hk|exact Hc].
Qed.

(** A step that leaves the view alone. *)
Lemma step_silent {A B} p (F : A -> Prop) E (c : M A) (k : A -> M B) Qok :
  silent c -> returns c F -> (forall v, p v -> E v) ->
  (forall a, F a -> hoare (on p) (k a) Qok (on E)) ->
  hoare (on p) (bind c k) Qok (on E).
Proof.
  intros Hs Hr HE Hk w Hw. unfold bind.
  specialize (Hs w). specialize (Hr w). unfold on in *.
  destruct (c w) as [w' [a|e]]; simpl in *.
  - apply Hk; trivial. unfold on. now rewrite Hs.
  - apply HE. now rewrite Hs.
Qed.

(** A step with an effect on the view. *)
Lemma step_effect {A B} p q E (c : M A) (k : A -> M B) Qok :
  hoare (on p) c (fun _ => on q) (on E) ->
  (forall a, hoare (on q) (k a) Qok (on E)) ->
  hoare (on p) (bind c k) Qok (on E).
Proof. intros Hc Hk. now apply hoare_bind with (R := fun _ => on q). Qed.

Lemma returns_any {A} (c : M A) : returns c (fun _ => True).
Proof. intros w. now destruct (snd (c w)). Qed.

Lemma silent_ret {A} (a : A) : silent (ret a).
Proof. intros w. reflexivity. Qed.

Lemma silent_lift {A} (r : result A) : silent (lift r).
Proof. intros w. reflexivity. Qed.

Lemma silent_bind {A B} (c : M A) (k : A -> M B) :
  silent c -> (forall a, silent (k a)) -> silent (bind c k).
Proof.
  intros Hc Hk w. unfold bind. specialize (Hc w).
  destruct (c w) as [w' [a|e]]; simpl in *; [|exact Hc].
  now rewrite Hk.
Qed.

Lemma silent_print line : silent (print line).
Proof. intros w. reflexivity. Qed.

Lemma silent_input prompt : silent (input prompt).
Proof.
  apply silent_bind; [apply silent_print|].
  intros _ w. destruct (stdin w); reflexivity.
Qed.

Lemma silent_cursor_lastrowid : silent cursor_lastrowid.
Proof. intros w. reflexivity. Qed.

Lemma silent_read_json_file client path : silent (read_json_file client path).
Proof. apply silent_lift. Qed.

(** The chat wrapper sends its prompt as one request, returns, and
    changes nothing else of the view. *)
Lemma get_chatgpt_response_view client prompt model w :
  exists v w',
    get_chatgpt_response client prompt model w = (w', Ok v) /\
    view w' = (conn w, chat_requests w ++ [prompt], image_requests w,
               downloads w, files w).
Proof.
  unfold get_chatgpt_response, try_except, bind, send_chat, lift.
  destruct (chat_completions_create client (length (chat_requests w))
              prompt model) as [[|content rest]|e];
    eexists _, _; split; reflexivity.
Qed.

Lemma create_dalle_image_view client text w :
  exists v w',
    create_dalle_image client text w = (w', Ok v) /\
    view w' = (conn w, chat_requests w, image_requests w ++ [text],
               downloads w, files w).
Proof.
  unfold create_dalle_image, try_except, bind, send_image, lift.
  destruct (images_generate client (length (image_requests w)) text)
    as [[|url rest]|e];
    eexists _, _; split; reflexivity.
Qed.

Variable client : services.

Lemma chats_at_facts st chats :
  chats_at st chats ->
  length chats <= 2 /\ Forall (fun p => length p <= 800) (skipn 1 chats).
Proof.
  destruct st; simpl.
  - intros ->. split; [simpl; lia|constructor].
  - destruct chats as [|a [|b chats]]; simpl; try discriminate.
    intros _. split; [lia|constructor].
  - intros (a & b & -> & Hb). split; [simpl; lia|].
    simpl. constructor; [exact Hb|constructor].
Qed.

Lemma before_save_aborted st img v :
  before_save client st img v -> aborted client v.
Proof.
  destruct v as [[[[oc chats] images] dls] fs].
  intros ((c & -> & Hcl & Hu) & Hch & Himg & -> & ->).
  apply chats_at_facts in Hch as [Hlen Hall].
  split; [|exact Hcl].
  repeat split; trivial; try (simpl; lia).
  - destruct img; [tauto|subst; simpl; lia].
  - destruct img; [tauto|subst; constructor].
  - now left.
  - now left.
Qed.

Lemma not_connected_aborted v : not_connected v -> aborted client v.
Proof.
  intros ->. split; [|exact I].
  unfold run_facts.
  split; [simpl; lia|]. split; [constructor|]. split; [simpl; lia|].
  split; [constructor|]. split; [left; exact I|]. split; [now left|].
  split; simpl; lia.
Qed.

Lemma finished_aborted v : finished client v -> aborted client v.
Proof.
  intros [Hf (c & Hc & Hcl)]. split; trivial.
  unfold not_closed. now rewrite Hc.
Qed.

Lemma connect_spec E :
  hoare (on not_connected) (connect client)
    (fun _ => on (before_save client NoChat false)) E.
Proof.
  intros w Hw. unfold on, not_connected, view in Hw.
  injection Hw as _ Hch Him Hd Hf.
  unfold connect, on, view. cbn [fst conn chat_requests image_requests
                                  downloads files].
  rewrite Hch, Him, Hd, Hf. unfold before_save.
  split; [|repeat split].
  eexists. split; [reflexivity|]. split; [reflexivity|].
  simpl. repeat split.
Qed.

Lemma create_spec E st img cols :
  hoare (on (before_save client st img))
    (execute (CreateTableIfNotExists cols))
    (fun _ => on (before_save client st img)) E.
Proof.
  intros w Hw. unfold on, view, before_save in Hw.
  destruct Hw as ((c & Hc & Hcl & Hu) & Hrest).
  pose proof (triple_create client cols w) as Ht.
  unfold triple in Ht. rewrite Hc in Ht. specialize (Ht Hu).
  unfold execute in *. rewrite Hc, Hcl in *. cbn [run] in *.
  destruct (working c) as [t|]; cbn [fst] in Ht;
    unfold on, view, before_save;
    cbn [conn chat_requests image_requests downloads files] in *;
    (split; [|exact Hrest]);
    (eexists; split; [reflexivity|]; split; [reflexivity|exact Ht]).
Qed.

Lemma chat_spec E st st' img prompt model :
  (forall l, chats_at st l -> chats_at st' (l ++ [prompt])) ->
  hoare (on (before_save client st img))
    (get_chatgpt_response client prompt model)
    (fun _ => on (before_save client st' img)) E.
Proof.
  intros Hst w Hw.
  destruct (get_chatgpt_response_view client prompt model w)
    as (v & w' & -> & Hv).
  unfold on in *. rewrite Hv. unfold view, before_save in *.
  destruct Hw as (H1 & H2 & H3 & H4 & H5). repeat split; auto.
Qed.

Lemma image_spec E st text :
  image_prompt_ok text ->
  hoare (on (before_save client st false))
    (create_dalle_image client text)
    (fun _ => on (before_save client st true)) E.
Proof.
  intros Hok w Hw.
  destruct (create_dalle_image_view client text w) as (v & w' & -> & Hv).
  unfold on in *. rewrite Hv. unfold view, before_save in *.
  destruct Hw as (H1 & H2 & H3 & H4 & H5). rewrite H3.
  repeat split; auto. simpl. constructor; [exact Hok|constructor].
Qed.

Lemma no_image_spec E st (v : pyval) :
  hoare (on (before_save client st false)) (ret v)
    (fun _ => on (before_save client st true)) E.
Proof.
  intros w Hw. unfold ret, on, view, before_save in *.
  destruct Hw as (H1 & H2 & H3 & H4 & H5). rewrite H3.
  repeat split; auto.
Qed.

Lemma saved_once_tidy oc : saved_once client oc -> tidy client oc.
Proof. now right. Qed.

(** Lines 195-203 from the state the run is in when it reaches them. *)
Lemma save_block_spec (go : bool) story_info text_response image_url image_dir :
  hoare (on (before_save client TwoChats true))
    (if go then
       save_to_database story_info text_response image_url ;;;
       commit ;;;
       print (nl ++ str "ChatGPT Response: " ++ format text_response) ;;;
       print (nl ++ str "Generated Image URL: " ++ format image_url) ;;;
       rowid <- cursor_lastrowid ;;
       download_image client image_url
         (image_dir ++ str "/" ++ decimal rowid ++ str ".png")
     else ret tt)
    (fun _ => on (finished client)) (on (aborted client)).
Proof.
  intros w Hw.
  pose proof (before_save_aborted _ _ _ Hw) as Hab.
  unfold on, view, before_save in Hw.
  destruct Hw as ((c & Hc & Hcl & Hu) & Hch & (Hil & Hia) & Hd & Hf).
  apply chats_at_facts in Hch as [Hlen Hall].
  destruct go.
  - unfold bind.
    destruct (save_outcome story_info text_response image_url w)
      as [[e ->]|(c0 & t & cells & st & Ec & _ & Et & Hst & ->)];
      [exact Hab|].
    rewrite Hc in Ec. injection Ec as <-.
    simpl in Hu. destruct Hu as (Htx & Hcw & Hrows & Hlog).
    assert (Hsaved :
      saved_once client
        (Some (mk_connection
                 (Some (mk_table (columns t)
                          (rows t ++ [mk_row (next_id (rows t)) cells])))
                 (Some (mk_table (columns t)
                          (rows t ++ [mk_row (next_id (rows t)) cells])))
                 false (Some (next_id (rows t))) (executed c ++ [st]) false))).
    { eexists _, (mk_row (next_id (rows t)) cells), st.
      split; [reflexivity|]. split; [reflexivity|]. split; [reflexivity|].
      cbn [committed executed stored_rows rows]. split.
      - rewrite <- Hrows, Hcw, Et. reflexivity.
      - rewrite filter_app, Hlog. simpl. now rewrite Hst. }
    unfold commit, print, cursor_lastrowid, download_image.
    cbn [conn closed stdin stdout chat_requests image_requests downloads
         files working committed lastrowid executed].
    rewrite Hd, Hf.
    destruct (requests_get client image_url) as [chunks|e];
      unfold on, finished, aborted, view, run_facts;
      cbn [fst conn chat_requests image_requests downloads files closed
           not_closed app length].
    + split; [|eexists; split; reflexivity].
      repeat split; trivial; try lia.
      * now apply saved_once_tidy.
      * now right.
    + split; [|reflexivity].
      repeat split; trivial; try lia.
      * now apply saved_once_tidy.
      * now right.
  - unfold ret, on, finished, view, run_facts.
    cbn [fst]. rewrite Hc, Hd, Hf. split; [|now exists c].
    repeat split; trivial; try (simpl; lia); now left.
Qed.

Lemma close_spec :
  hoare (on (finished client)) close
    (fun _ => on (completed client)) (on (aborted client)).
Proof.
  intros w [Hfacts (c & Hc & Hcl)]. unfold view in Hc. cbn [fst] in Hc.
  pose proof (close_keeps_tidy client w) as Htidy.
  unfold close in *. rewrite Hc in *.
  unfold on, completed, view in *. cbn [fst conn chat_requests image_requests
                                         downloads files] in *.
  rewrite Hc in Hfacts.
  destruct Hfacts as (H1 & H2 & H3 & H4 & H5 & H6 & H7 & H8).
  split; [|eexists; split; reflexivity].
  repeat split; trivial; [now apply Htidy|].
  destruct H6 as [H6|(c' & r & st & [= <-] & Htx & Hcw & Hrows & Hlog)];
    [now left|right].
  eexists _, r, st. split; [reflexivity|]. simpl. tauto.
Qed.

End RunFacts.

Section RunSummary.

Variable client : services.

Lemma returns_lift {A} (r : result A) (F : A -> Prop) :
  (forall a, r = Ok a -> F a) -> returns (lift r) F.
Proof. intros H w. simpl. destruct r; auto. Qed.

(** Lines 176-178: the summarising prompt is cut to 800 characters. *)
Lemma returns_cut_prompt s :
  returns
    (lift (if (Z.of_nat (length s) >? 800)%Z
           then cut_at_word s 800 else Ok s))
    (fun p => length p <= 800).
Proof.
  apply returns_lift. intros p.
  destruct (Z.gtb_spec (Z.of_nat (length s)) 800) as [_|Hle].
  - intros Hp. apply cut_at_word_bounded in Hp; lia.
  - intros [= <-]. lia.
Qed.

(** Line 186. *)
Lemma returns_instructions image_prompt :
  returns
    (if py_truthy image_prompt
     then s <- lift (extract_image_instructions image_prompt 500) ;;
          ret (PyStr s)
     else ret PyNone)
    instructions_ok.
Proof.
  intros w. destruct image_prompt as [|t]; cbn [py_truthy];
    [now left|].
  destruct (truthy t); [|now left].
  unfold bind, lift, ret.
  destruct (extract_image_instructions (PyStr t) 500) as [r|e] eqn:E;
    cbn [snd]; trivial.
  right. exists r. split; trivial. split.
  - apply extract_bounded in E; lia.
  - apply extract_prefix in E as [rest Hrest]. intros Hin.
    apply (instruction_no_dot t). rewrite Hrest. apply in_or_app. now left.
Qed.

Lemma silent_instructions image_prompt :
  silent
    (if py_truthy image_prompt
     then s <- lift (extract_image_instructions image_prompt 500) ;;
          ret (PyStr s)
     else ret PyNone).
Proof.
  destruct (py_truthy image_prompt); [|apply silent_ret].
  apply silent_bind; [apply silent_lift|intros; apply silent_ret].
Qed.

Lemma truthy_instructions v :
  instructions_ok v -> py_truthy v = true -> image_prompt_ok v.
Proof.
  intros [->|(s & -> & Hlen & Hdot)]; [discriminate|].
  simpl. intros Ht. exists s. split; trivial.
  split; [now apply truthy_true_iff|now split].
Qed.

(** Whatever the services answer and the user types: a run that returns
    has closed its connection, one that raises has not, and in both
    cases the requests, downloads and rows are within [run_facts]. *)
Lemma main_run :
  hoare (on not_connected) (main client)
    (fun _ => on (completed client)) (on (aborted client)).
Proof.
  unfold main. cbv zeta.
  apply step_silent with (F := fun _ => True);
    [apply silent_read_json_file|apply returns_any
    |exact (not_connected_aborted client)|intros data _].
  apply step_silent with (F := fun _ => True);
    [apply silent_lift|apply returns_any
    |exact (not_connected_aborted client)|intros key _].
  apply step_effect with (q := before_save client NoChat false);
    [apply connect_spec|intros _].
  apply step_effect with (q := before_save client NoChat false);
    [apply create_spec|intros _].
  do 3 (apply step_silent with (F := fun _ => True);
        [apply silent_input|apply returns_any
        |apply before_save_aborted|intros ? _]).
  apply step_effect with (q := before_save client OneChat false);
    [apply chat_spec; intros l ->; reflexivity|intros text_response].
  apply step_silent with (F := fun p => length p <= 800);
    [apply silent_lift|apply returns_cut_prompt
    |apply before_save_aborted|intros prompt Hprompt].
  apply step_effect with (q := before_save client TwoChats false).
  { apply chat_spec. intros [|first [|second l]]; simpl; try discriminate.
    intros _. now exists first, prompt. }
  intros image_prompt.
  apply step_silent with (F := instructions_ok);
    [apply silent_instructions|apply returns_instructions
    |apply before_save_aborted|intros image_instructions Hins].
  apply step_silent with (F := fun _ => True);
    [apply silent_lift|apply returns_any
    |apply before_save_aborted|intros line _].
  apply step_silent with (F := fun _ => True);
    [apply silent_print|apply returns_any
    |apply before_save_aborted|intros _ _].
  apply step_effect with (q := before_save client TwoChats true).
  { destruct (py_truthy image_instructions) eqn:Ht.
    - apply image_spec. now apply truthy_instructions.
    - apply no_image_spec. }
  intros image_url.
  apply step_effect with (q := finished client);
    [apply save_block_spec|intros _; apply close_spec].
Qed.

Lemma main_outcome typed :
  match main client (initial_world typed) with
  | (w, Ok _) => completed client (view w)
  | (w, Raise _) => aborted client (view w)
  end.
Proof. exact (main_run (initial_world typed) eq_refl). Qed.

Lemma main_facts typed :
  run_facts client (view (fst (main client (initial_world typed)))).
Proof.
  pose proof (main_outcome typed) as H.
  destruct (main client (initial_world typed)) as [w [[]|e]];
    now destruct H.
Qed.

End RunSummary.

(** X9: whatever the services answer, a run sends at most two chat
    requests and one image request, fetches at most one url and writes
    at most one file, and no file without a fetch. *)
Theorem run_request_budget : forall client typed,
  let w := fst (main client (initial_world typed)) in
  length (chat_requests w) <= 2 /\
  length (image_requests w) <= 1 /\
  length (downloads w) <= 1 /\
  length (files w) <= length (downloads w).
Proof.
  intros client typed w.
  pose proof (main_facts client typed) as H. fold w in H.
  unfold view, run_facts in H. tauto.
Qed.

(** X10: the second chat request of a run, the summarising prompt, is
    never longer than 800 characters, and a prompt sent to the image
    endpoint is a non-empty string of at most 500 characters without a
    period. *)
Theorem run_prompt_bounds : forall client typed,
  let w := fst (main client (initial_world typed)) in
  Forall (fun p => length p <= 800) (skipn 1 (chat_requests w)) /\
  Forall image_prompt_ok (image_requests w).
Proof.
  intros client typed w.
  pose proof (main_facts client typed) as H. fold w in H.
  unfold view, run_facts in H. tauto.
Qed.

(** X11: a run fetches the image only after it has saved and committed
    its row: when a url was requested, the file holds the rows it held
    at connection time followed by one new row. *)
Theorem download_only_after_commit : forall client typed,
  downloads (fst (main client (initial_world typed))) <> [] ->
  exists r,
    file_rows client (fst (main client (initial_world typed))) =
      stored_rows (database_file client) ++ [r] /\
    length (inserts (fst (main client (initial_world typed)))) = 1.
Proof.
  intros client typed Hd.
  pose proof (main_facts client typed) as H.
  unfold view, run_facts in H.
  destruct H as (_ & _ & _ & _ & _ & [H|H] & _); [contradiction|].
  destruct H as (c & r & st & Hc & _ & _ & Hrows & Hlog).
  exists r. unfold file_rows, inserts. rewrite Hc, Hrows, Hlog.
  now split.
Qed.

Lemma download_only_after_commit_witness :
  exists r,
    file_rows working_client
      (fst (main working_client (initial_world typed_answers))) =
      stored_rows (database_file working_client) ++ [r] /\
    length (inserts (fst (main working_client (initial_world typed_answers))))
      = 1.
Proof.
  apply (download_only_after_commit working_client typed_answers).
  vm_compute. discriminate.
Defined.

(** X12: a run that returns has closed its connection; a run that
    raises, at whatever step, has not: the connection it opened, if any,
    is left open. *)
Theorem connection_closed_only_on_return : forall client typed,
  match main client (initial_world typed) with
  | (w, Ok _) => exists c, conn w = Some c /\ closed c = true
  | (w, Raise _) =>
      match conn w with
      | None => True
      | Some c => closed c = false
      end
  end.
Proof.
  intros client typed.
  pose proof (main_outcome client typed) as H.
  destruct (main client (initial_world typed)) as [w [[]|e]].
  - destruct H as [_ H]. exact H.
  - destruct H as [_ H]. exact H.
Qed.

(** X13: when the configuration file cannot be read or has no KEY, the
    run raises before it connects, prompts or sends anything: the world
    is as it was. *)
Theorem main_stops_without_key : forall client typed,
  match config_file client with
  | Ok data => lookup "KEY" data = None
  | Raise _ => True
  end ->
  exists e, main client (initial_world typed) = (initial_world typed, Raise e).
Proof.
  intros client typed H.
  unfold main, bind, read_json_file, lift, getitem.
  destruct (config_file client) as [data|e]; [|now exists e].
  rewrite H. now eexists.
Qed.

Lemma main_stops_without_key_witness :
  exists e,
    main keyless_client (initial_world typed_answers) =
      (initial_world typed_answers, Raise e).
Proof.
  apply (main_stops_without_key keyless_client typed_answers).
  reflexivity.
Defined.

Section SkippedSave.

Variable client : services.

Lemma step_effect_val {A B} p q (F : A -> Prop) E (c : M A) (k : A -> M B) Qok :
  hoare (on p) c (fun a w => F a /\ on q w) (on E) ->
  (forall a, F a -> hoare (on q) (k a) Qok (on E)) ->
  hoare (on p) (bind c k) Qok (on E).
Proof.
  intros Hc Hk. apply hoare_bind with (R := fun a w => F a /\ on q w);
    trivial.
  intros a w [Fa Hw]. now apply Hk.
Qed.

Lemma before_save_nothing_saved st img v :
  before_save client st img v -> nothing_saved client v.
Proof.
  destruct v as [[[[oc chats] images] dls] fs].
  intros ((c & -> & _ & Hu) & _ & _ & -> & ->). now split.
Qed.

Lemma not_connected_nothing_saved v :
  not_connected v -> nothing_saved client v.
Proof. intros ->. repeat split. Qed.

(** The first chat call of a run, with what it returns. *)
Lemma first_chat_spec E img prompt model :
  hoare (on (before_save client NoChat img))
    (get_chatgpt_response client prompt model)
    (fun v w => (no_story client -> py_truthy v = false) /\
                on (before_save client OneChat img) w) E.
Proof.
  intros w Hw. unfold on, view, before_save in Hw.
  destruct Hw as (H1 & H2 & H3 & H4 & H5). simpl in H2.
  unfold get_chatgpt_response, try_except, bind, send_chat, lift.
  rewrite H2. cbn [length].
  assert (Hview : forall line,
    on (before_save client OneChat img)
      (mk_world (stdin w) line ([] ++ [prompt]) (image_requests w)
         (downloads w) (files w) (conn w))).
  { intros line. unfold on, view, before_save. cbn. repeat split; auto. }
  destruct (chat_completions_create client 0 prompt model)
    as [[|content rest]|e] eqn:Eo; cbn.
  - split; [reflexivity|exact (Hview [])].
  - split; [|exact (Hview [])]. intros Hno.
    specialize (Hno prompt model). now rewrite Eo in Hno.
  - split; [reflexivity|exact (Hview [])].
Qed.

(** Line 191, with what it returns. *)
Lemma image_step_spec E st image_instructions :
  instructions_ok image_instructions ->
  hoare (on (before_save client st false))
    (if py_truthy image_instructions
     then create_dalle_image client image_instructions
     else ret PyNone)
    (fun v w => (no_image client -> py_truthy v = false) /\
                on (before_save client st true) w) E.
Proof.
  intros Hins w Hw.
  destruct (py_truthy image_instructions) eqn:Ht.
  - pose proof (image_spec client E st image_instructions
                  (truthy_instructions _ Hins Ht) w Hw) as Hspec.
    unfold create_dalle_image, try_except, bind, send_image, lift in *.
    destruct (images_generate client (length (image_requests w))
                image_instructions) as [[|url rest]|e] eqn:Eo;
      cbn in *; (split; [|exact Hspec]); try reflexivity.
    intros Hno.
    specialize (Hno (length (image_requests w)) image_instructions).
    now rewrite Eo in Hno.
  - split; [reflexivity|]. exact (no_image_spec client E st PyNone w Hw).
Qed.

Lemma close_nothing_saved E :
  hoare (on (nothing_saved client)) close
    (fun _ => on (nothing_saved client)) E.
Proof.
  intros w Hw. unfold on, view, nothing_saved in *.
  destruct Hw as (Hu & Hd & Hf). unfold close.
  destruct (conn w) as [c|] eqn:Ec;
    cbn [fst conn downloads files]; [|now rewrite Ec].
  split; [|now split]. simpl in *. tauto.
Qed.

(** When the story text or the image url is absent, the run goes past
    its save block without executing it. *)
Lemma main_skips_save :
  no_story client \/ no_image client ->
  hoare (on not_connected) (main client)
    (fun _ => on (nothing_saved client)) (on (nothing_saved client)).
Proof.
  intros Habsent. unfold main. cbv zeta.
  apply step_silent with (F := fun _ => True);
    [apply silent_read_json_file|apply returns_any
    |exact not_connected_nothing_saved|intros data _].
  apply step_silent with (F := fun _ => True);
    [apply silent_lift|apply returns_any
    |exact not_connected_nothing_saved|intros key _].
  apply step_effect with (q := before_save client NoChat false);
    [apply connect_spec|intros _].
  apply step_effect with (q := before_save client NoChat false);
    [apply create_spec|intros _].
  do 3 (apply step_silent with (F := fun _ => True);
        [apply silent_input|apply returns_any
        |apply before_save_nothing_saved|intros ? _]).
  apply step_effect_val
    with (q := before_save client OneChat false)
         (F := fun v => no_story client -> py_truthy v = false);
    [apply first_chat_spec|intros text_response Htext].
  apply step_silent with (F := fun p => length p <= 800);
    [apply silent_lift|apply returns_cut_prompt
    |apply before_save_nothing_saved|intros prompt Hprompt].
  apply step_effect with (q := before_save client TwoChats false).
  { apply chat_spec. intros [|first [|second l]]; simpl; try discriminate.
    intros _. now exists first, prompt. }
  intros image_prompt.
  apply step_silent with (F := instructions_ok);
    [apply silent_instructions|apply returns_instructions
    |apply before_save_nothing_saved|intros image_instructions Hins].
  apply step_silent with (F := fun _ => True);
    [apply silent_lift|apply returns_any
    |apply before_save_nothing_saved|intros line _].
  apply step_silent with (F := fun _ => True);
    [apply silent_print|apply returns_any
    |apply before_save_nothing_saved|intros _ _].
  apply step_effect_val
    with (q := before_save client TwoChats true)
         (F := fun v => no_image client -> py_truthy v = false);
    [now apply image_step_spec|intros image_url Hurl].
  assert (Hgo : py_truthy text_response && py_truthy image_url = false).
  { destruct Habsent as [H|H].
    - now rewrite (Htext H).
    - rewrite (Hurl H). apply andb_false_r. }
  rewrite Hgo.
  apply step_silent with (F := fun _ => True);
    [apply silent_ret|apply returns_any
    |apply before_save_nothing_saved|intros _ _].
  intros w Hw.
  apply (close_nothing_saved (on (nothing_saved client)) w).
  now apply before_save_nothing_saved in Hw.
Qed.

End SkippedSave.

(** X14: when the first chat call yields no text, or the image call
    yields no url, the run executes no INSERT, fetches nothing and
    writes no file: the database file holds what it held when the run
    connected. *)
Theorem absent_result_skips_save : forall client typed,
  no_story client \/ no_image client ->
  let w := fst (main client (initial_world typed)) in
  inserts w = [] /\ downloads w = [] /\ files w = [] /\
  file_rows client w = stored_rows (database_file client).
Proof.
  intros client typed Habsent w.
  pose proof (main_skips_save client Habsent (initial_world typed) eq_refl)
    as H.
  assert (Hn : nothing_saved client (view w)).
  { subst w. destruct (main client (initial_world typed)) as [w' [[]|e]];
      exact H. }
  unfold view, nothing_saved in Hn. destruct Hn as (Hu & Hd & Hf).
  unfold inserts, file_rows.
  destruct (conn w) as [c|]; simpl in Hu; [|now repeat split].
  destruct Hu as (_ & _ & Hrows & Hlog). now repeat split.
Qed.

Lemma absent_result_skips_save_witness :
  let w := fst (main no_image_client (initial_world typed_answers)) in
  inserts w = [] /\ downloads w = [] /\ files w = [] /\
  file_rows no_image_client w = stored_rows (database_file no_image_client).
Proof.
  apply (absent_result_skips_save no_image_client typed_answers).
  right. intros n text. exact I.
Defined.

(** * The pieces of the extractor against the phrases of the spec *)

Section Pieces.

Lemma excludes_dot_comma c :
  excludes ["."; ","] c = true <-> c <> "." /\ c <> ",".
Proof.
  unfold excludes. cbn [existsb].
  rewrite orb_false_r, negb_true_iff, orb_false_iff. split.
  - intros [H1 H2]. apply Ascii.eqb_neq in H1, H2. now split.
  - intros [H1 H2]. split; now apply Ascii.eqb_neq.
Qed.

Lemma plain_run_iff u :
  (u <> [] /\ Forall (fun c => excludes ["."; ","] c = true) u) <->
  plain_run u.
Proof.
  unfold plain_run. rewrite Forall_forall. split.
  - intros [Hne Hall]. split; trivial.
    split; intros Hin; apply Hall in Hin; apply excludes_dot_comma in Hin;
      tauto.
  - intros (Hne & Hd & Hc). split; trivial. intros c Hin.
    apply excludes_dot_comma. split; intros ->; contradiction.
Qed.

(** The branches of the source's patterns have the phrases of the spec. *)
Lemma in_branch_introduced word x :
  in_branch [Lit word; not_dot_comma] x <-> introduced_by word x.
Proof.
  unfold introduced_by, not_dot_comma. cbn [in_branch]. split.
  - intros (w' & -> & u & w'' & -> & Hne & Hall & ->).
    exists u. rewrite app_nil_r. split; trivial. now apply plain_run_iff.
  - intros (u & Hu & ->). apply plain_run_iff in Hu as [Hne Hall].
    exists u. split; [reflexivity|]. exists u, [].
    split; [now rewrite app_nil_r|]. now repeat split.
Qed.

Lemma in_branch_described noun x :
  in_branch [Lit (str "a "); not_dot_comma; Lit (str " " ++ noun)] x <->
  described noun x.
Proof.
  unfold described, not_dot_comma. cbn [in_branch]. split.
  - intros (w' & -> & u & w'' & -> & Hne & Hall & w3 & -> & ->).
    exists u. rewrite app_nil_r. split; [now apply plain_run_iff|reflexivity].
  - intros (u & Hu & ->). apply plain_run_iff in Hu as [Hne Hall].
    exists (u ++ str " " ++ noun). split; [reflexivity|].
    exists u, (str " " ++ noun). split; [reflexivity|].
    split; trivial. split; trivial.
    exists []. split; [now rewrite app_nil_r|reflexivity].
Qed.

Lemma setting_langs : same_langs (map in_branch setting_pattern) setting_phrases.
Proof.
  unfold same_langs, setting_pattern, setting_phrases. cbn [map].
  repeat (apply Forall2_cons; [intros w; apply in_branch_introduced|]).
  apply Forall2_nil.
Qed.

Lemma action_langs : same_langs (map in_branch action_pattern) action_phrases.
Proof.
  unfold same_langs, action_pattern, action_phrases. cbn [map].
  repeat (apply Forall2_cons; [intros w; apply in_branch_introduced|]).
  apply Forall2_nil.
Qed.

Lemma character_langs :
  same_langs (map in_branch characters_pattern) character_phrases.
Proof.
  unfold same_langs, characters_pattern, character_phrases. cbn [map].
  apply Forall2_cons; [intros w; exact (in_branch_described (str "man") w)|].
  apply Forall2_cons; [intros w; exact (in_branch_described (str "woman") w)|].
  apply Forall2_cons; [intros w; exact (in_branch_described (str "person") w)|].
  apply Forall2_cons;
    [intros w; exact (in_branch_described (str "creature") w)|].
  apply Forall2_nil.
Qed.

Lemma in_pattern_any_of p w : in_pattern p w <-> any_of (map in_branch p) w.
Proof.
  unfold in_pattern, any_of. rewrite Exists_exists. split.
  - intros (b & Hb & Hw). exists (in_branch b). split; trivial.
    now apply in_map.
  - intros (L & HL & Hw). apply in_map_iff in HL as (b & <- & Hb).
    now exists b.
Qed.

Lemma matches_at_starts_at p s j :
  matches_at p s j <-> starts_at (any_of (map in_branch p)) s j.
Proof.
  unfold matches_at, starts_at.
  split; intros (Hj & w & t & Hs & Hw); (split; [exact Hj|]);
    exists w, t; (split; [exact Hs|]); now apply in_pattern_any_of.
Qed.

Lemma starts_at_S L c s j : starts_at L (c :: s) (S j) <-> starts_at L s j.
Proof. unfold starts_at. simpl. split; intros [H1 H2]; split; trivial; lia. Qed.

Lemma starts_at_piece L pre m post :
  L m -> starts_at L (pre ++ m ++ post) (length pre).
Proof.
  intros Hm. split; [rewrite length_app; lia|].
  exists m, post. split; trivial. apply skipn_length_app.
Qed.

(** The first run length that succeeds is the greatest that does. *)
Lemma backtrack_first k n m :
  backtrack k n = Some m ->
  exists j r, 1 <= j <= n /\ k j = Some r /\ m = j + r /\
              forall j', j < j' <= n -> k j' = None.
Proof.
  induction n as [|n IH]; simpl; [discriminate|].
  destruct (k (S n)) as [r|] eqn:E.
  - intros [= <-]. exists (S n), r.
    split; [lia|]. split; [exact E|]. split; [reflexivity|].
    intros j' Hj'. lia.
  - intros H. destruct (IH H) as (j & r & Hj & Hk & -> & Hlater).
    exists j, r. split; [lia|]. split; [exact Hk|]. split; [reflexivity|].
    intros j' Hj'. destruct (Nat.eq_dec j' (S n)) as [->|Hne]; trivial.
    apply Hlater. lia.
Qed.

(** The match of a branch with one run is the longest word of the
    branch at the head of the subject. *)
Lemma match_branch_longest b s n :
  one_run b = true -> match_branch b s = Some n ->
  forall w t, s = w ++ t -> in_branch b w -> length w <= n.
Proof.
  destruct b as [|[word|?] [|[?|excluded] [|[last|?] [|? ?]]]];
    try discriminate; intros _.
  - cbn [match_branch]. destruct (starts_with word s); [|discriminate].
    destruct (span excluded (skipn (length word) s)) as [|k] eqn:Es;
      cbn [backtrack]; [discriminate|].
    intros [= <-] w t -> Hin. cbn [in_branch] in Hin.
    destruct Hin as (w' & -> & u & w'' & -> & _ & Hall & ->).
    rewrite app_nil_r in *.
    rewrite <- app_assoc, skipn_length_app in Es.
    pose proof (span_app excluded u t Hall) as Hspan.
    rewrite Es in Hspan. rewrite length_app. lia.
  - cbn [match_branch]. destruct (starts_with word s); [|discriminate].
    destruct (backtrack _ _) as [r|] eqn:Eb; [|discriminate].
    intros [= <-].
    apply backtrack_first in Eb as (j & r' & Hj & Hk & -> & Hlater).
    intros w t -> Hin. cbn [in_branch] in Hin.
    destruct Hin as (w' & -> & u & w'' & -> & Hne & Hall & w3 & -> & ->).
    rewrite app_nil_r in *.
    revert Hj Hk Hlater. rewrite <- !app_assoc, skipn_length_app.
    intros Hj Hk Hlater.
    pose proof (span_app excluded u (last ++ t) Hall) as Hspan.
    assert (Hr : r' = length last + 0).
    { destruct (starts_with last (skipn j (u ++ last ++ t)));
        [now injection Hk|discriminate]. }
    assert (Hu : length u <= j).
    { destruct (le_lt_dec (length u) j) as [|Hlt]; trivial.
      specialize (Hlater (length u) (conj Hlt Hspan)).
      rewrite skipn_length_app, starts_with_app in Hlater. discriminate. }
    rewrite !length_app. lia.
Qed.

Lemma match_here_preferred p s n :
  forallb one_run p = true -> match_here p s = Some n ->
  preferred (map in_branch p) s (firstn n s).
Proof.
  induction p as [|b p IH]; simpl; [discriminate|].
  intros Hp. apply andb_prop in Hp as [Hb Hp].
  destruct (match_branch b s) as [m|] eqn:E.
  - intros [= <-]. pose proof (match_branch_sound b s m E) as [Hle Hin].
    exists [], (in_branch b), (map in_branch p).
    split; [reflexivity|]. split; [intros L' []|]. split; [exact Hin|].
    split; [exists (skipn m s); symmetry; apply firstn_skipn|].
    intros w t Hs Hw. rewrite length_firstn.
    pose proof (match_branch_longest b s m Hb E w t Hs Hw). lia.
  - intros Hm.
    destruct (IH Hp Hm) as (before & L & after & Heq & Hnone & Hrest).
    exists (in_branch b :: before), L, after.
    split; [simpl; now rewrite Heq|]. split; [|exact Hrest].
    intros L' [<-|HL'] w t Hs Hw.
    + subst s. destruct (match_branch_complete b w t Hw) as [k Hk].
      congruence.
    + now apply (Hnone L' HL' w t).
Qed.

(** [re.search] returns the first piece. *)
Lemma search_first_piece p text :
  forallb one_run p = true ->
  first_piece (map in_branch p) text (group_or_empty (search p text)).
Proof.
  intros Hp. unfold search.
  destruct (search_pos p text) as [[i n]|] eqn:E.
  - pose proof (search_pos_some p text i n E) as (Hle & _ & Hleft).
    apply search_pos_here in E as [_ Hhere].
    right. cbn [group_or_empty].
    exists (firstn i text), (skipn n (skipn i text)).
    rewrite firstn_skipn. split; [now rewrite firstn_skipn|]. split.
    + intros j Hj Hs. apply matches_at_starts_at in Hs. revert Hs.
      apply Hleft. rewrite length_firstn in Hj. lia.
    + now apply match_here_preferred.
  - left. split; trivial. intros j Hs. apply matches_at_starts_at in Hs.
    revert Hs. now apply search_pos_none.
Qed.

Lemma all_pieces_cons langs c s found :
  ~ starts_at (any_of langs) (c :: s) 0 ->
  all_pieces langs s found -> all_pieces langs (c :: s) found.
Proof.
  intros H0 H.
  inversion H as [? Hno|? pre m post rest Heq Hleft Hpref Hrest]; subst.
  - constructor. intros [|j]; trivial. rewrite starts_at_S. apply Hno.
  - apply pieces_next with (pre := c :: pre) (post := post); trivial.
    intros [|j] Hj; [exact H0|]. intros Hs. apply starts_at_S in Hs.
    revert Hs. apply Hleft. simpl in Hj. lia.
Qed.

(** [re.findall] returns all the pieces. *)
Lemma findall_from_all_pieces p s skip :
  forallb one_run p = true -> forallb branch_nonempty p = true ->
  skip <= length s ->
  all_pieces (map in_branch p) (skipn skip s) (findall_from p s skip).
Proof.
  intros Hp Hne. revert skip. induction s as [|c s IH]; intros skip Hs.
  - simpl in Hs. assert (skip = 0) by lia. subst. simpl.
    destruct (match_here p []) as [n|] eqn:E.
    + apply match_here_sound in E as [_ Hin]. rewrite firstn_nil in Hin.
      now apply in_pattern_nonempty in Hin.
    + constructor. intros j Hj. apply matches_at_starts_at in Hj.
      pose proof (matches_at_bound _ _ _ Hj) as Hb. simpl in Hb.
      assert (j = 0) by lia. subst. now apply match_here_none in Hj.
  - destruct skip as [|k].
    + cbn [skipn findall_from].
      destruct (match_here p (c :: s)) as [n|] eqn:E.
      * pose proof (match_here_preferred p (c :: s) n Hp E) as Hpref.
        apply match_here_sound in E as [Hle Hin].
        destruct n as [|n].
        { now apply in_pattern_nonempty in Hin. }
        cbn [pred]. simpl in Hle.
        assert (Hk : n <= length s) by lia.
        specialize (IH n Hk).
        apply pieces_next
          with (pre := []) (post := skipn n s); trivial.
        -- simpl. f_equal. symmetry. apply firstn_skipn.
        -- intros j Hj. simpl in Hj. lia.
        -- replace (firstn (S n) (c :: s) ++ skipn n s) with (c :: s);
             trivial.
           simpl. f_equal. symmetry. apply firstn_skipn.
      * apply all_pieces_cons; [|apply (IH 0); lia].
        intros Hs0. apply matches_at_starts_at in Hs0.
        now apply match_here_none in Hs0.
    + cbn [skipn findall_from]. apply IH. simpl in Hs. lia.
Qed.

Lemma findall_all_pieces p s :
  forallb one_run p = true -> forallb branch_nonempty p = true ->
  all_pieces (map in_branch p) s (findall p s).
Proof.
  intros Hp Hne. apply (findall_from_all_pieces p s 0 Hp Hne). lia.
Qed.

End Pieces.

Section PiecesDetermined.

Lemma same_langs_sym ls ls' : same_langs ls ls' -> same_langs ls' ls.
Proof.
  induction 1 as [|L L' ls ls' HL _ IH]; constructor; trivial.
  intros w. symmetry. apply HL.
Qed.

Lemma same_langs_in ls ls' L' :
  same_langs ls ls' -> In L' ls' ->
  exists L, In L ls /\ forall w, L w <-> L' w.
Proof.
  induction 1 as [|L0 L0' ls ls' HL _ IH]; intros Hin; [contradiction|].
  destruct Hin as [<-|Hin].
  - exists L0. split; [now left|exact HL].
  - destruct (IH Hin) as (L & HLin & HLw). exists L. split; [now right|exact HLw].
Qed.

Lemma any_of_same ls ls' w : same_langs ls ls' -> any_of ls' w -> any_of ls w.
Proof.
  intros Hs (L' & Hin & Hw).
  destruct (same_langs_in ls ls' L' Hs Hin) as (L & HL & Hiff).
  exists L. split; trivial. now apply Hiff.
Qed.

Lemma starts_at_same ls ls' text j :
  same_langs ls ls' ->
  starts_at (any_of ls') text j -> starts_at (any_of ls) text j.
Proof.
  intros Hs (Hj & w & t & Ht & Hw). split; trivial.
  exists w, t. split; trivial. now apply any_of_same with ls'.
Qed.

Lemma preferred_same ls ls' s m :
  same_langs ls ls' -> preferred ls s m -> preferred ls' s m.
Proof.
  intros Hs (before & L & after & -> & Hnone & HL & Hpre & Hlong).
  apply Forall2_app_inv_l in Hs as (before' & rest' & Hb & Hr & ->).
  inversion Hr as [|? L' ? after' HLL' Ha]; subst.
  exists before', L', after'. split; [reflexivity|]. split.
  - intros L0' Hin w t Hst Hw.
    destruct (same_langs_in before before' L0' Hb Hin) as (L0 & HL0 & Hiff).
    apply (Hnone L0 HL0 w t Hst). now apply Hiff.
  - split; [now apply HLL'|]. split; trivial.
    intros w t Hst Hw. apply (Hlong w t Hst). now apply HLL'.
Qed.

Lemma first_piece_same ls ls' text piece :
  same_langs ls ls' -> first_piece ls text piece -> first_piece ls' text piece.
Proof.
  intros Hs [[-> Hno]|(pre & post & Ht & Hleft & Hpref)].
  - left. split; trivial. intros j Hj. apply (Hno j).
    now apply starts_at_same with ls'.
  - right. exists pre, post. split; trivial. split.
    + intros j Hj Hst. apply (Hleft j Hj). now apply starts_at_same with ls'.
    + now apply preferred_same with ls.
Qed.

Lemma all_pieces_same ls ls' text found :
  same_langs ls ls' -> all_pieces ls text found -> all_pieces ls' text found.
Proof.
  intros Hs. induction 1 as [text Hno|text pre m post found Ht Hleft Hpref _ IH].
  - constructor. intros j Hj. apply (Hno j). now apply starts_at_same with ls'.
  - apply pieces_next with (pre := pre) (post := post); trivial.
    + intros j Hj Hst. apply (Hleft j Hj). now apply starts_at_same with ls'.
    + now apply preferred_same with ls.
Qed.

Lemma same_prefix {A} (a b c d : list A) :
  a ++ b = c ++ d -> length a = length c -> a = c /\ b = d.
Proof.
  revert c. induction a as [|x a IH]; intros [|y c]; simpl;
    try discriminate; intros Heq Hlen; [now split|].
  injection Heq as -> Heq. injection Hlen as Hlen.
  destruct (IH c Heq Hlen) as [-> ->]. now split.
Qed.

Lemma earlier_alternative {A} (b1 : list A) x a1 b2 r :
  b1 ++ x :: a1 = b2 ++ r -> length b1 < length b2 -> In x b2.
Proof.
  revert b2. induction b1 as [|y b1 IH]; intros [|z b2]; simpl;
    intros Heq Hlen; try lia.
  - injection Heq as -> _. now left.
  - injection Heq as _ Heq. right. apply (IH b2 Heq). lia.
Qed.

Lemma preferred_any_of langs s m : preferred langs s m -> any_of langs m.
Proof.
  intros (before & L & after & -> & _ & HL & _). exists L. split; trivial.
  apply in_elt.
Qed.

(** The phrase taken at the head of a string is determined. *)
Lemma preferred_unique langs s m1 m2 :
  preferred langs s m1 -> preferred langs s m2 -> m1 = m2.
Proof.
  intros (b1 & L1 & a1 & Hl1 & Hn1 & HL1 & [t1 Ht1] & Hlong1)
         (b2 & L2 & a2 & Hl2 & Hn2 & HL2 & [t2 Ht2] & Hlong2).
  rewrite Hl1 in Hl2.
  destruct (lt_eq_lt_dec (length b1) (length b2)) as [[Hlt|Heq]|Hgt].
  - exfalso. apply (Hn2 L1 (earlier_alternative _ _ _ _ _ Hl2 Hlt) m1 t1 Ht1 HL1).
  - destruct (same_prefix _ _ _ _ Hl2 Heq) as [_ Hrest].
    injection Hrest as -> _.
    pose proof (Hlong1 m2 t2 Ht2 HL2) as H21.
    pose proof (Hlong2 m1 t1 Ht1 HL1) as H12.
    rewrite Ht1 in Ht2.
    now destruct (same_prefix _ _ _ _ Ht2 (Nat.le_antisymm _ _ H12 H21)).
  - exfalso. symmetry in Hl2.
    apply (Hn1 L2 (earlier_alternative _ _ _ _ _ Hl2 Hgt) m2 t2 Ht2 HL2).
Qed.

(** Where the first phrase starts and what it is are determined. *)
Lemma first_phrase_unique langs text pre1 m1 post1 pre2 m2 post2 :
  text = pre1 ++ m1 ++ post1 -> text = pre2 ++ m2 ++ post2 ->
  (forall j, j < length pre1 -> ~ starts_at (any_of langs) text j) ->
  (forall j, j < length pre2 -> ~ starts_at (any_of langs) text j) ->
  preferred langs (m1 ++ post1) m1 -> preferred langs (m2 ++ post2) m2 ->
  m1 = m2 /\ post1 = post2.
Proof.
  intros Ht1 Ht2 Hleft1 Hleft2 Hp1 Hp2.
  assert (Hs1 : starts_at (any_of langs) text (length pre1)).
  { rewrite Ht1. apply starts_at_piece. now apply preferred_any_of in Hp1. }
  assert (Hs2 : starts_at (any_of langs) text (length pre2)).
  { rewrite Ht2. apply starts_at_piece. now apply preferred_any_of in Hp2. }
  assert (Hlen : length pre1 = length pre2).
  { destruct (lt_eq_lt_dec (length pre1) (length pre2)) as [[Hlt|Heq]|Hgt];
      trivial; exfalso.
    - exact (Hleft2 _ Hlt Hs1).
    - exact (Hleft1 _ Hgt Hs2). }
  rewrite Ht1 in Ht2.
  destruct (same_prefix _ _ _ _ Ht2 Hlen) as [_ Hrest].
  rewrite <- Hrest in Hp2.
  pose proof (preferred_unique _ _ _ _ Hp1 Hp2) as Hm. subst m2.
  split; trivial. now apply app_inv_head in Hrest.
Qed.

Lemma first_piece_unique langs text p1 p2 :
  first_piece langs text p1 -> first_piece langs text p2 -> p1 = p2.
Proof.
  intros [[-> Hno1]|(pre1 & post1 & Ht1 & Hleft1 & Hp1)]
         [[-> Hno2]|(pre2 & post2 & Ht2 & Hleft2 & Hp2)]; trivial.
  - exfalso. apply (Hno1 (length pre2)). rewrite Ht2.
    apply starts_at_piece. now apply preferred_any_of in Hp2.
  - exfalso. apply (Hno2 (length pre1)). rewrite Ht1.
    apply starts_at_piece. now apply preferred_any_of in Hp1.
  - now destruct (first_phrase_unique langs text pre1 p1 post1 pre2 p2 post2).
Qed.

Lemma all_pieces_unique langs text f1 f2 :
  all_pieces langs text f1 -> all_pieces langs text f2 -> f1 = f2.
Proof.
  intros H1. revert f2.
  induction H1 as [text Hno|text pre m post found Ht Hleft Hp _ IH];
    intros f2 H2;
    inversion H2
      as [t2 Hno2 Et Ef|t2 pre2 m2 post2 found2 Ht2 Hleft2 Hp2 Hrest2 Et Ef];
    subst t2 f2; trivial.
  - exfalso. apply (Hno (length pre2)). rewrite Ht2.
    apply starts_at_piece. now apply preferred_any_of in Hp2.
  - exfalso. apply (Hno2 (length pre)). rewrite Ht.
    apply starts_at_piece. now apply preferred_any_of in Hp.
  - destruct (first_phrase_unique langs text pre m post pre2 m2 post2)
      as [-> ->]; trivial.
    f_equal. now apply IH.
Qed.

End PiecesDetermined.

(** C1: before any truncation the output is the [", "]-join of the
    non-empty pieces among the first setting phrase of the text, all
    its character phrases joined with [", "], and its first action
    phrase, in that order; these pieces, the ones [re.search] and
    [re.findall] return, are the only ones that fit the description. *)
Theorem instruction_is_join_of_pieces : forall text,
  let setting := group_or_empty (search setting_pattern text) in
  let characters := findall characters_pattern text in
  let action := group_or_empty (search action_pattern text) in
  (forall piece, first_piece setting_phrases text piece <-> piece = setting) /\
  (forall found,
      all_pieces character_phrases text found <-> found = characters) /\
  (forall piece, first_piece action_phrases text piece <-> piece = action) /\
  instruction text =
    join_nonempty [setting; join (str ", ") characters; action] /\
  forall extra : nat,
    extract_image_instructions (PyStr text)
      (Z.of_nat (length (instruction text) + extra)) =
    Ok (join_nonempty [setting; join (str ", ") characters; action]).
Proof.
  intros text setting characters action.
  assert (Hs : first_piece setting_phrases text setting).
  { apply first_piece_same with (map in_branch setting_pattern);
      [apply setting_langs|now apply search_first_piece]. }
  assert (Hc : all_pieces character_phrases text characters).
  { apply all_pieces_same with (map in_branch characters_pattern);
      [apply character_langs|now apply findall_all_pieces]. }
  assert (Ha : first_piece action_phrases text action).
  { apply first_piece_same with (map in_branch action_pattern);
      [apply action_langs|now apply search_first_piece]. }
  split.
  { intros piece. split; [|now intros ->].
    intros H. now apply first_piece_unique with setting_phrases text. }
  split.
  { intros found. split; [|now intros ->].
    intros H. now apply all_pieces_unique with character_phrases text. }
  split.
  { intros piece. split; [|now intros ->].
    intros H. now apply first_piece_unique with action_phrases text. }
  assert (Heq : instruction text =
                join_nonempty [setting; join (str ", ") characters; action]).
  { unfold instruction. apply join_filter_None. }
  split; trivial.
  intros extra. rewrite <- Heq. apply instruction_no_cut.
Qed.

(** The two texts on which a looser reading of "first" and "all" would
    give other pieces. *)
Example pieces_of_two_texts :
  search setting_pattern (str "in a dark forest") = Some (str "in a dark forest") /\
  ~ first_piece setting_phrases (str "in a dark forest") (str "in a d") /\
  findall characters_pattern (str "a big man and a tall man")
    = [str "a big man and a tall man"] /\
  ~ all_pieces character_phrases (str "a big man and a tall man")
      [str "a big man"; str "a tall man"] /\
  instruction (str "a big man and a tall man") = str "a big man and a tall man".
Proof.
  split; [vm_compute; reflexivity|]. split.
  { intros H.
    assert (Hreal : first_piece setting_phrases (str "in a dark forest")
                      (group_or_empty
                         (search setting_pattern (str "in a dark forest")))).
    { apply first_piece_same with (map in_branch setting_pattern);
        [apply setting_langs|now apply search_first_piece]. }
    pose proof (first_piece_unique _ _ _ _ H Hreal) as Heq.
    vm_compute in Heq. discriminate. }
  split; [vm_compute; reflexivity|]. split; [|vm_compute; reflexivity].
  intros H.
  assert (Hreal : all_pieces character_phrases (str "a big man and a tall man")
                    (findall characters_pattern
                       (str "a big man and a tall man"))).
  { apply all_pieces_same with (map in_branch characters_pattern);
      [apply character_langs|now apply findall_all_pieces]. }
  pose proof (all_pieces_unique _ _ _ _ H Hreal) as Heq.
  vm_compute in Heq. discriminate.
Qed.
